(** * network/compression.go: the gzip message compressor

    A shallow embedding of [gzipCompressor] (package [network]) together
    with the parts of the Go standard library it drives: [bytes.Buffer],
    [bytes.Reader], [io.ReadFull], [io.ReadAll], [hash/crc32] and the
    [compress/gzip] container (RFC 1952).  The DEFLATE coder of
    [compress/flate] is kept abstract: it is a pair of functions
    ([deflate], [inflate]) and the laws a theorem needs are stated as
    hypotheses of that theorem.  A stored-block coder (RFC 1951, BTYPE=00)
    is given at the end of the definitions as an instance of those laws. *)

From Stdlib Require Import NArith List Lia Bool.
From Stdlib Require Import Strings.Byte.
From stdpp Require Import base option list gmap.

Local Open Scope N_scope.

(** ** Go values *)

Abbreviation byte := Byte.byte.

(** Go's [error] values that can reach this package.  A nil [error] is
    [None : option error]. *)
Inductive error : Type :=
| EOF                           (* io.EOF *)
| ErrUnexpectedEOF              (* io.ErrUnexpectedEOF *)
| ErrHeader                     (* gzip.ErrHeader *)
| ErrChecksum                   (* gzip.ErrChecksum *)
| CorruptInputError (off : N)   (* flate.CorruptInputError *)
| InternalError.                (* flate.InternalError *)

#[global] Instance error_eq_dec : EqDecision error.
Proof. solve_decision. Defined.

#[global] Instance byte_eq_dec : EqDecision byte := Byte.byte_eq_dec.

(** [byte(n)]: conversion of an unsigned integer to a byte keeps the low
    eight bits. *)
Definition byte_of_N (n : N) : byte :=
  match Byte.of_N (n mod 256) with
  | Some b => b
  | None => Byte.x00
  end.

(** uint32 arithmetic wraps modulo 2^32. *)
Definition uint32 (n : N) : N := n mod 2 ^ 32.

(** ** encoding/binary, little endian *)

Module le.

Definition PutUint32 (v : N) : list byte :=
  [ byte_of_N v; byte_of_N (N.shiftr v 8);
    byte_of_N (N.shiftr v 16); byte_of_N (N.shiftr v 24) ].

Definition Uint32 (b : list byte) : N :=
  match b with
  | b0 :: b1 :: b2 :: b3 :: _ =>
      N.lor (Byte.to_N b0)
        (N.lor (N.shiftl (Byte.to_N b1) 8)
           (N.lor (N.shiftl (Byte.to_N b2) 16) (N.shiftl (Byte.to_N b3) 24)))
  | _ => 0
  end.

Definition PutUint16 (v : N) : list byte :=
  [byte_of_N v; byte_of_N (N.shiftr v 8)].

Definition Uint16 (b : list byte) : N :=
  match b with
  | b0 :: b1 :: _ => N.lor (Byte.to_N b0) (N.shiftl (Byte.to_N b1) 8)
  | _ => 0
  end.

End le.

(** ** hash/crc32, IEEE polynomial *)

Module crc32.

Definition IEEE : N := 0xedb88320.

(** One entry of the table built by [simpleMakeTable]: eight shift steps. *)
Fixpoint shifts (n : nat) (crc : N) : N :=
  match n with
  | O => crc
  | S n' =>
      shifts n' (if N.odd crc
                 then N.lxor (N.shiftr crc 1) IEEE
                 else N.shiftr crc 1)
  end.

Definition IEEETable (i : N) : N := shifts 8 i.

(** [simpleUpdate]: [crc = tab[byte(crc)^v] ^ (crc >> 8)] for each byte,
    between two complements. *)
Definition step (crc : N) (v : byte) : N :=
  N.lxor (IEEETable (N.lxor (N.land crc 0xff) (Byte.to_N v))) (N.shiftr crc 8).

Definition Update (crc : N) (p : list byte) : N :=
  N.lxor (fold_left step p (N.lxor crc 0xffffffff)) 0xffffffff.

Definition ChecksumIEEE (p : list byte) : N := Update 0 p.

End crc32.


(** ** Outcomes

    A Go call either returns, or panics on a nil pointer.  [OutOfFuel] is
    the only artefact of the embedding: the decoding loop of [io.ReadAll]
    is written with a fuel argument, and [gzip_ReadAll_total] below shows
    that the fuel it is given is always enough. *)
Inductive outcome (A : Type) : Type :=
| Done (a : A)
| Panic
| OutOfFuel.
Arguments Done {A} a.
Arguments Panic {A}.
Arguments OutOfFuel {A}.

#[global] Instance outcome_ret : MRet outcome := fun A a => Done a.
#[global] Instance outcome_bind : MBind outcome := fun A B f m =>
  match m with
  | Done a => f a
  | Panic => Panic
  | OutOfFuel => OutOfFuel
  end.

(** Dereference of a pointer field. *)
Definition deref {A : Type} (p : option A) : outcome A :=
  match p with
  | Some a => Done a
  | None => Panic
  end.

(** ** Memory

    Byte slices live in a store: a location holds the contents of one
    backing array.  A [slice] is the location it points to, so two slices
    alias exactly when they are equal.  Arguments of [Compress] and
    [Decompress] are only read during the call and are passed by their
    contents. *)
Abbreviation loc := positive.
Abbreviation slice := loc.
Abbreviation heap := (gmap loc (list byte)).

Definition contents (h : heap) (p : slice) : list byte := default [] (h !! p).

(** [make([]byte, n)]: a fresh, zeroed backing array. *)
Definition make (n : nat) (h : heap) : slice * heap :=
  let p := fresh (dom h) in (p, <[p := replicate n Byte.x00]> h).

(** [copy(dst, src)] copies [min(len(dst), len(src))] bytes. *)
Definition copy (dst src : slice) (h : heap) : heap :=
  let d := contents h dst in
  let s := contents h src in
  <[dst := take (length d) s ++ drop (length s) d]> h.

(** ** bytes.Buffer

    A [*bytes.Buffer] is the location of its backing array; the store
    holds the unread portion [b.buf[b.off:]].  [Write] never returns an
    error.  Growth keeps the location: the model does not let the buffer
    escape its storage, which is the worst case for aliasing. *)
Module Buffer.

Definition new (h : heap) : loc * heap :=
  let b := fresh (dom h) in (b, <[b := []]> h).

Definition Reset (b : loc) (h : heap) : heap := <[b := []]> h.

Definition Write (b : loc) (p : list byte) (h : heap)
  : (nat * option error) * heap :=
  ((length p, None), <[b := contents h b ++ p]> h).

(** [Bytes] returns a slice that aliases the buffer. *)
Definition Bytes (b : loc) : slice := b.

End Buffer.

(** ** bytes.Reader and io.ReadFull

    A [bytes.Reader] is modelled by the bytes it has not read yet
    ([r.s[r.i:]]).  It implements [io.ByteReader], so [compress/flate]
    reads from it byte by byte and never reads ahead. *)
Definition bytes_Reader := list byte.

Definition bytes_NewReader (b : list byte) : bytes_Reader := b.
Definition bytes_Reader_Reset (r : bytes_Reader) (b : list byte) : bytes_Reader := b.

(** [io.ReadFull(r, buf[:n])]: [io.EOF] when nothing could be read,
    [io.ErrUnexpectedEOF] when fewer than [n] bytes were there. *)
Definition io_ReadFull (n : nat) (r : bytes_Reader)
  : list byte * option error * bytes_Reader :=
  if (length r <? n)%nat
  then (r, Some (match r with [] => EOF | _ => ErrUnexpectedEOF end), [])
  else (take n r, None, drop n r).

(** gzip's [noEOF]. *)
Definition noEOF (e : error) : error :=
  match e with
  | EOF => ErrUnexpectedEOF
  | _ => e
  end.

(** ** compress/flate, abstractly

    [deflate d] is everything a [flate.Writer] at the default level has
    written to its destination once [d] was written to it and it was
    closed.  [inflate s] is one run of a [flate.Reader] over the input
    [s] until it stops: the bytes it produced, the number of input bytes
    it consumed, and how it stopped ([None] is the clean end of a DEFLATE
    stream, which the reader reports as [io.EOF]). *)
Inductive flate_error : Type :=
| FlateUnexpectedEOF
| FlateCorrupt (off : N)
| FlateInternal.

Definition flate_error_to_error (e : flate_error) : error :=
  match e with
  | FlateUnexpectedEOF => ErrUnexpectedEOF
  | FlateCorrupt off => CorruptInputError off
  | FlateInternal => InternalError
  end.

Record flate_run : Type := FlateRun {
  run_out : list byte;
  run_used : nat;
  run_status : option flate_error
}.

Class Flate : Type := {
  deflate : list byte -> list byte;
  inflate : list byte -> flate_run
}.

(** What a decoder owes its encoder: a DEFLATE stream is self-delimiting,
    so whatever follows it is left unread. *)
Definition flate_round_trip `{Flate} : Prop :=
  forall d rest : list byte,
    inflate (deflate d ++ rest) = FlateRun d (length (deflate d)) None.

(** A stream cut short does not decode: the decoder needs every byte the
    encoder wrote. *)
Definition flate_prefix_fails `{Flate} : Prop :=
  forall (d : list byte) (n : nat),
    (n < length (deflate d))%nat ->
    run_status (inflate (take n (deflate d))) <> None.

(** ** compress/gzip: Writer

    [gzip.NewWriter] takes the default compression level and a header
    whose only set field is [OS = 255]; the package under study never
    touches the level or the header (no name, comment, extra data or
    modification time), so the model keeps neither the level nor those
    fields, and the FLG, MTIME and XFL bytes written are zero. *)
Section Gzip.
Context `{Flate}.

(** State of a [flate.Writer]: the data written to it since it was last
    reset.  Its output is accounted for when it is closed. *)
Record flate_Writer : Type := FlateWriter { fw_pending : list byte }.

Record gzip_Writer : Type := GzipWriter {
  w_OS : byte;
  w_w : loc;
  w_wroteHeader : bool;
  w_compressor : option flate_Writer;
  w_digest : N;
  w_size : N;
  w_closed : bool;
  w_err : option error
}.

Definition gzipID1 : byte := Byte.x1f.
Definition gzipID2 : byte := Byte.x8b.
Definition gzipDeflate : byte := Byte.x08.

(** [Writer.init]: the compressor, when there is one, is kept and reset. *)
Definition gzip_Writer_init (compressor : option flate_Writer) (w : loc)
  : gzip_Writer :=
  {| w_OS := Byte.xff; w_w := w; w_wroteHeader := false;
     w_compressor := (fun _ => FlateWriter []) <$> compressor;
     w_digest := 0; w_size := 0; w_closed := false; w_err := None |}.

Definition gzip_NewWriter (w : loc) : gzip_Writer := gzip_Writer_init None w.

Definition gzip_Writer_Reset (z : gzip_Writer) (w : loc) : gzip_Writer :=
  gzip_Writer_init (w_compressor z) w.

Definition gzip_Writer_set_err (z : gzip_Writer) (e : option error) : gzip_Writer :=
  {| w_OS := w_OS z; w_w := w_w z; w_wroteHeader := w_wroteHeader z;
     w_compressor := w_compressor z; w_digest := w_digest z;
     w_size := w_size z; w_closed := w_closed z; w_err := e |}.

(** The lazily written ten-byte header of [Writer.Write]. *)
Definition gzip_header (os : byte) : list byte :=
  [gzipID1; gzipID2; gzipDeflate; Byte.x00;
   Byte.x00; Byte.x00; Byte.x00; Byte.x00; Byte.x00; os].

Definition gzip_Writer_writeHeader (z : gzip_Writer) (h : heap)
  : option error * gzip_Writer * heap :=
  if w_wroteHeader z then (None, z, h)
  else
    let '((_, err), h) := Buffer.Write (w_w z) (gzip_header (w_OS z)) h in
    (err,
     {| w_OS := w_OS z; w_w := w_w z; w_wroteHeader := true;
        w_compressor :=
          match err, w_compressor z with
          | None, None => Some (FlateWriter [])      (* flate.NewWriter *)
          | _, c => c
          end;
        w_digest := w_digest z; w_size := w_size z;
        w_closed := w_closed z; w_err := err |},
     h).

Definition gzip_Writer_Write (z : gzip_Writer) (p : list byte) (h : heap)
  : outcome ((nat * option error) * gzip_Writer * heap) :=
  match w_err z with
  | Some e => Done ((0%nat, Some e), z, h)
  | None =>
      let '(err, z, h) := gzip_Writer_writeHeader z h in
      match err with
      | Some e => Done ((0%nat, Some e), z, h)
      | None =>
          c ← deref (w_compressor z);
          (* z.compressor.Write(p): into the in-memory buffer, no error *)
          Done ((length p, None),
                {| w_OS := w_OS z; w_w := w_w z;
                   w_wroteHeader := w_wroteHeader z;
                   w_compressor := Some (FlateWriter (fw_pending c ++ p));
                   w_digest := crc32.Update (w_digest z) p;
                   w_size := uint32 (w_size z + N.of_nat (length p));
                   w_closed := w_closed z; w_err := None |},
                h)
      end
  end.

(** [flate.Writer.Close]: the whole DEFLATE stream is in the destination
    once it returns; its error is the destination's. *)
Definition flate_Writer_Close (c : flate_Writer) (w : loc) (h : heap)
  : option error * heap :=
  let '((_, err), h) := Buffer.Write w (deflate (fw_pending c)) h in (err, h).

Definition gzip_Writer_Close (z : gzip_Writer) (h : heap)
  : outcome (option error * gzip_Writer * heap) :=
  match w_err z with
  | Some e => Done (Some e, z, h)
  | None =>
      if w_closed z then Done (None, z, h)
      else
        let z := {| w_OS := w_OS z; w_w := w_w z;
                    w_wroteHeader := w_wroteHeader z;
                    w_compressor := w_compressor z; w_digest := w_digest z;
                    w_size := w_size z; w_closed := true; w_err := None |} in
        '(_, z, h) ←
          (if w_wroteHeader z then Done ((0%nat, None), z, h)
           else gzip_Writer_Write z [] h);
        match w_err z with
        | Some e => Done (Some e, z, h)
        | None =>
            c ← deref (w_compressor z);
            let '(err, h) := flate_Writer_Close c (w_w z) h in
            match err with
            | Some e => Done (Some e, gzip_Writer_set_err z (Some e), h)
            | None =>
                let '((_, err), h) :=
                  Buffer.Write (w_w z)
                    (le.PutUint32 (w_digest z) ++ le.PutUint32 (w_size z)) h in
                Done (err, gzip_Writer_set_err z err, h)
            end
        end
  end.

(** ** compress/gzip: Reader

    The [flate.Reader] inside a [gzip.Reader] keeps the error it stopped
    with; [Close] reports it unless it is [io.EOF].  The reader's source
    [z.r] is, in this package, always the compressor's own
    [*bytes.Reader]: the functions below take and return its state, so
    both names denote the same object. *)
Record flate_Reader : Type := FlateReader { fr_err : option error }.

Record gzip_Reader : Type := GzipReader {
  r_decompressor : option flate_Reader;
  r_digest : N;
  r_size : N;
  r_err : option error;
  r_multistream : bool
}.

Definition flagHdrCrc : N := 2.
Definition flagExtra : N := 4.
Definition flagName : N := 8.
Definition flagComment : N := 16.

Definition gzip_Reader_set_digest (z : gzip_Reader) (d : N) : gzip_Reader :=
  {| r_decompressor := r_decompressor z; r_digest := d; r_size := r_size z;
     r_err := r_err z; r_multistream := r_multistream z |}.

Definition gzip_Reader_set_err (z : gzip_Reader) (e : option error) : gzip_Reader :=
  {| r_decompressor := r_decompressor z; r_digest := r_digest z;
     r_size := r_size z; r_err := e; r_multistream := r_multistream z |}.

(** One step of header parsing: an error or nil, the reader and its
    source afterwards. *)
Definition hstep : Type :=
  gzip_Reader -> bytes_Reader -> option error * gzip_Reader * bytes_Reader.

Definition hseq (a b : hstep) : hstep := fun z r =>
  match a z r with
  | (Some e, z, r) => (Some e, z, r)
  | (None, z, r) => b z r
  end.

Definition hwhen (c : bool) (a : hstep) : hstep :=
  if c then a else fun z r => (None, z, r).

(** [readString]: a NUL-terminated string of at most [len(z.buf) = 512]
    bytes, the terminator included; the digest covers the terminator. *)
Fixpoint readString_loop (i : nat) (seen : list byte) (z : gzip_Reader)
    (r : bytes_Reader) : option error * gzip_Reader * bytes_Reader :=
  if (512 <=? i)%nat then (Some ErrHeader, z, r)
  else
    match r with
    | [] => (Some EOF, z, r)
    | b :: r' =>
        if decide (b = Byte.x00)
        then (None,
              gzip_Reader_set_digest z (crc32.Update (r_digest z) (seen ++ [b])),
              r')
        else readString_loop (S i) (seen ++ [b]) z r'
    end.

Definition readString : hstep := fun z r =>
  match readString_loop 0 [] z r with
  | (Some e, z, r) => (Some (noEOF e), z, r)
  | ok => ok
  end.

Definition readExtra : hstep := fun z r =>
  let '(buf, err, r) := io_ReadFull 2 r in
  match err with
  | Some e => (Some (noEOF e), z, r)
  | None =>
      let z := gzip_Reader_set_digest z (crc32.Update (r_digest z) buf) in
      let '(data, err, r) := io_ReadFull (N.to_nat (le.Uint16 buf)) r in
      match err with
      | Some e => (Some (noEOF e), z, r)
      | None =>
          (None, gzip_Reader_set_digest z (crc32.Update (r_digest z) data), r)
      end
  end.

Definition readHdrCrc : hstep := fun z r =>
  let '(buf, err, r) := io_ReadFull 2 r in
  match err with
  | Some e => (Some (noEOF e), z, r)
  | None =>
      if decide (le.Uint16 buf = r_digest z mod 2 ^ 16)
      then (None, z, r)
      else (Some ErrHeader, z, r)
  end.

(** The end of [readHeader]: the digest restarts and the decompressor is
    made ([flate.NewReader]) or reset over the source. *)
Definition startInflate : hstep := fun z r =>
  (None,
   {| r_decompressor := Some (FlateReader None); r_digest := 0;
      r_size := r_size z; r_err := r_err z;
      r_multistream := r_multistream z |},
   r).

Definition flag_set (flg : byte) (mask : N) : bool :=
  negb (N.land (Byte.to_N flg) mask =? 0).

(** [readHeader] does not set [z.err]; its caller does. *)
Definition readHeader : hstep := fun z r =>
  let '(buf, err, r) := io_ReadFull 10 r in
  match err with
  | Some e => (Some e, z, r)
  | None =>
      match buf with
      | id1 :: id2 :: cm :: flg :: _ =>
          if decide (id1 = gzipID1 /\ id2 = gzipID2 /\ cm = gzipDeflate)
          then
            hseq (hwhen (flag_set flg flagExtra) readExtra)
              (hseq (hwhen (flag_set flg flagName) readString)
                 (hseq (hwhen (flag_set flg flagComment) readString)
                    (hseq (hwhen (flag_set flg flagHdrCrc) readHdrCrc)
                       startInflate)))
              (gzip_Reader_set_digest z (crc32.ChecksumIEEE buf)) r
          else (Some ErrHeader, z, r)
      | _ => (Some ErrHeader, z, r)
      end
  end.

(** [Reader.Reset]: everything but the decompressor is cleared, then the
    first header is read. *)
Definition gzip_Reader_Reset (z : gzip_Reader) (r : bytes_Reader)
  : option error * gzip_Reader * bytes_Reader :=
  let z := {| r_decompressor := r_decompressor z; r_digest := 0; r_size := 0;
              r_err := None; r_multistream := true |} in
  let '(err, z, r) := readHeader z r in
  (err, gzip_Reader_set_err z err, r).

(** [gzip.NewReader]: [new(Reader)] then [Reset]; no reader on error. *)
Definition gzip_NewReader (r : bytes_Reader)
  : option gzip_Reader * option error * bytes_Reader :=
  let '(err, z, r) :=
    gzip_Reader_Reset
      {| r_decompressor := None; r_digest := 0; r_size := 0;
         r_err := None; r_multistream := false |} r in
  match err with
  | Some e => (None, Some e, r)
  | None => (Some z, None, r)
  end.

(** [io.ReadAll(z)]: what the calls of [z.Read] add up to.  Each round
    is one gzip member: the decompressor runs until it stops, the trailer
    is checked against the digest and size of what came out, and the next
    header is read.  [io.ReadAll] turns a final [io.EOF] into nil and
    returns the bytes read so far together with any other error. *)
Definition ReadAll_err (e : error) : option error :=
  match e with
  | EOF => None
  | _ => Some e
  end.

Fixpoint gzip_ReadAll (fuel : nat) (z : gzip_Reader) (r : bytes_Reader)
    (acc : list byte)
  : outcome (list byte * option error * gzip_Reader * bytes_Reader) :=
  match r_err z with
  | Some e => Done (acc, ReadAll_err e, z, r)
  | None =>
      _ ← deref (r_decompressor z);
      let run := inflate r in
      let r := drop (run_used run) r in
      let acc := acc ++ run_out run in
      let digest := crc32.Update (r_digest z) (run_out run) in
      let size := uint32 (r_size z + N.of_nat (length (run_out run))) in
      let stop (d : option error) (digest size : N) (e : option error) :=
        {| r_decompressor := Some (FlateReader d); r_digest := digest;
           r_size := size; r_err := e;
           r_multistream := r_multistream z |} in
      match run_status run with
      | Some fe =>
          let e := flate_error_to_error fe in
          Done (acc, Some e, stop (Some e) digest size (Some e), r)
      | None =>
          let '(buf, err, r) := io_ReadFull 8 r in
          match err with
          | Some e =>
              Done (acc, Some (noEOF e),
                    stop (Some EOF) digest size (Some (noEOF e)), r)
          | None =>
              if decide (le.Uint32 (take 4 buf) = digest
                         /\ le.Uint32 (drop 4 buf) = size)
              then
                if r_multistream z
                then
                  let '(err, z', r) := readHeader (stop (Some EOF) 0 0 None) r in
                  match err with
                  | Some e =>
                      Done (acc, ReadAll_err e,
                            gzip_Reader_set_err z' (Some e), r)
                  | None =>
                      match fuel with
                      | O => OutOfFuel
                      | S fuel =>
                          gzip_ReadAll fuel z' r acc
                      end
                  end
                else Done (acc, None, stop (Some EOF) 0 0 (Some EOF), r)
              else
                Done (acc, Some ErrChecksum,
                      stop (Some EOF) digest size (Some ErrChecksum), r)
          end
      end
  end.

Definition io_ReadAll (z : gzip_Reader) (r : bytes_Reader)
  : outcome (list byte * option error * gzip_Reader * bytes_Reader) :=
  gzip_ReadAll (length r) z r [].

(** [Reader.Close] is the decompressor's [Close]. *)
Definition gzip_Reader_Close (z : gzip_Reader) : outcome (option error) :=
  d ← deref (r_decompressor z);
  Done (match fr_err d with
        | Some EOF => None
        | e => e
        end).

(** ** network: gzipCompressor *)

Definition compressionThresholdBytes : nat := 128.

Record gzipCompressor : Type := GzipCompressor {
  writerInitialised : bool;
  readerInitialised : bool;
  writeBuffer : option loc;
  gzipWriter : option gzip_Writer;
  bytesReader : option bytes_Reader;
  gzipReader : option gzip_Reader
}.

(** [NewCompressor] returns [&gzipCompressor{}]. *)
Definition NewCompressor : gzipCompressor :=
  {| writerInitialised := false; readerInitialised := false;
     writeBuffer := None; gzipWriter := None;
     bytesReader := None; gzipReader := None |}.

Definition set_writer (g : gzipCompressor) (init : bool) (b : option loc)
    (zw : option gzip_Writer) : gzipCompressor :=
  {| writerInitialised := init; readerInitialised := readerInitialised g;
     writeBuffer := b; gzipWriter := zw;
     bytesReader := bytesReader g; gzipReader := gzipReader g |}.

Definition set_reader (g : gzipCompressor) (br : option bytes_Reader)
    (zr : option gzip_Reader) : gzipCompressor :=
  {| writerInitialised := writerInitialised g;
     readerInitialised := readerInitialised g;
     writeBuffer := writeBuffer g; gzipWriter := gzipWriter g;
     bytesReader := br; gzipReader := zr |}.

Definition resetWriter (g : gzipCompressor) (h : heap)
  : outcome (gzipCompressor * heap) :=
  if negb (writerInitialised g) then
    let '(buf, h) := Buffer.new h in
    Done (set_writer g true (Some buf) (Some (gzip_NewWriter buf)), h)
  else
    buf ← deref (writeBuffer g);
    let h := Buffer.Reset buf h in
    zw ← deref (gzipWriter g);
    Done (set_writer g (writerInitialised g) (Some buf)
            (Some (gzip_Writer_Reset zw buf)), h).

Definition resetReader (msg : list byte) (g : gzipCompressor)
  : outcome (option error * gzipCompressor) :=
  if negb (readerInitialised g) then
    let br := bytes_NewReader msg in
    let '(zr, err, br) := gzip_NewReader br in
    match err with
    | Some e => Done (Some e, set_reader g (Some br) (gzipReader g))
    | None => Done (None, set_reader g (Some br) zr)
    end
  else
    br ← deref (bytesReader g);
    let br := bytes_Reader_Reset br msg in
    zr ← deref (gzipReader g);
    let '(err, zr, br) := gzip_Reader_Reset zr br in
    let g := set_reader g (Some br) (Some zr) in
    match err with
    | Some e => if decide (e = EOF) then Done (None, g) else Done (Some e, g)
    | None => Done (None, g)
    end.

(** A Go result pair [([]byte, error)]. *)
Definition result : Type := option slice * option error.

Definition Compress (msg : list byte) (g : gzipCompressor) (h : heap)
  : outcome (result * gzipCompressor * heap) :=
  '(g, h) ← resetWriter g h;
  zw ← deref (gzipWriter g);
  '((_, err), zw, h) ← gzip_Writer_Write zw msg h;
  let g := set_writer g (writerInitialised g) (writeBuffer g) (Some zw) in
  match err with
  | Some e => Done ((None, Some e), g, h)
  | None =>
      '(err, zw, h) ← gzip_Writer_Close zw h;
      let g := set_writer g (writerInitialised g) (writeBuffer g) (Some zw) in
      match err with
      | Some e => Done ((None, Some e), g, h)
      | None =>
          buf ← deref (writeBuffer g);
          let cmpBufferBytes := Buffer.Bytes buf in
          let '(cmpBytes, h) := make (length (contents h cmpBufferBytes)) h in
          let h := copy cmpBytes cmpBufferBytes h in
          Done ((Some cmpBytes, None), g, h)
      end
  end.

(** [io.ReadAll] hands back a slice of its own. *)
Definition alloc (bs : list byte) (h : heap) : slice * heap :=
  let p := fresh (dom h) in (p, <[p := bs]> h).

Definition Decompress (msg : list byte) (g : gzipCompressor) (h : heap)
  : outcome (result * gzipCompressor * heap) :=
  '(err, g) ← resetReader msg g;
  match err with
  | Some e => Done ((None, Some e), g, h)
  | None =>
      zr ← deref (gzipReader g);
      br ← deref (bytesReader g);
      '(bs, err, zr, br) ← io_ReadAll zr br;
      let g := set_reader g (Some br) (Some zr) in
      let '(data, h) := alloc bs h in
      match err with
      | Some e => Done ((None, Some e), g, h)
      | None =>
          err ← gzip_Reader_Close zr;
          match err with
          | Some e => Done ((None, Some e), g, h)
          | None =>
              let '(decompData, h) := make (length (contents h data)) h in
              let h := copy decompData data h in
              Done ((Some decompData, None), g, h)
          end
      end
  end.

Definition IsDecompressable (g : gzipCompressor) (msg : list byte) : bool :=
  (10 <? length msg)%nat.

Definition IsCompressable (g : gzipCompressor) (msg : list byte) : bool :=
  (compressionThresholdBytes <? length msg)%nat.

(** The interface [Compressor], and [gzipCompressor] implementing it. *)
Class Compressor (C : Type) : Type := {
  Compressor_Compress :
    list byte -> C -> heap -> outcome (result * C * heap);
  Compressor_Decompress :
    list byte -> C -> heap -> outcome (result * C * heap);
  Compressor_IsDecompressable : C -> list byte -> bool;
  Compressor_IsCompressable : C -> list byte -> bool
}.

#[global] Instance gzipCompressor_Compressor : Compressor gzipCompressor := {
  Compressor_Compress := Compress;
  Compressor_Decompress := Decompress;
  Compressor_IsDecompressable := IsDecompressable;
  Compressor_IsCompressable := IsCompressable
}.

End Gzip.

(** ** A DEFLATE coder with stored blocks only

    RFC 1951, section 3.2.4: a block header byte (BFINAL in bit 0, BTYPE
    = 00 in bits 1-2), LEN and its one's complement NLEN in little endian,
    then LEN literal bytes.  The encoder cuts its input into blocks of at
    most 65535 bytes; the decoder accepts stored blocks and nothing else.
    It is the instance of [Flate] at which the theorems below are
    exercised. *)
Module stored.

Definition maxStoreBlockSize : nat := N.to_nat 65535.

Definition block (final : bool) (d : list byte) : list byte :=
  (if final then Byte.x01 else Byte.x00)
    :: le.PutUint16 (N.of_nat (length d))
    ++ le.PutUint16 (N.lxor (N.of_nat (length d)) 0xffff)
    ++ d.

Fixpoint store (fuel : nat) (d : list byte) : list byte :=
  match fuel with
  | O => block true d
  | S fuel =>
      if (length d <=? maxStoreBlockSize)%nat then block true d
      else block false (take maxStoreBlockSize d)
             ++ store fuel (drop maxStoreBlockSize d)
  end.

Definition deflate (d : list byte) : list byte := store (length d) d.

Fixpoint unstore (fuel : nat) (s out : list byte) (used : nat) : flate_run :=
  match fuel with
  | O => FlateRun out used (Some FlateUnexpectedEOF)
  | S fuel =>
      match s with
      | [] => FlateRun out used (Some FlateUnexpectedEOF)
      | hd :: s1 =>
          if negb (N.land (N.shiftr (Byte.to_N hd) 1) 3 =? 0)
          then FlateRun out used (Some (FlateCorrupt (N.of_nat used)))
          else
            match s1 with
            | l0 :: l1 :: n0 :: n1 :: s2 =>
                let len := le.Uint16 [l0; l1] in
                if negb (le.Uint16 [n0; n1] =? N.lxor len 0xffff)
                then FlateRun out used (Some (FlateCorrupt (N.of_nat used)))
                else
                  let n := N.to_nat len in
                  if (length s2 <? n)%nat
                  then FlateRun (out ++ s2) (used + 5 + length s2)
                         (Some FlateUnexpectedEOF)
                  else if N.odd (Byte.to_N hd)
                  then FlateRun (out ++ take n s2) (used + 5 + n) None
                  else unstore fuel (drop n s2) (out ++ take n s2)
                         (used + 5 + n)
            | _ => FlateRun out (used + length s) (Some FlateUnexpectedEOF)
            end
      end
  end.

Definition inflate (s : list byte) : flate_run := unstore (length s) s [] 0.

Definition flate : Flate := Build_Flate deflate inflate.

End stored.

(** ** Specification vocabulary *)

Section Vocabulary.
Context `{Flate}.

(** The trailer of a gzip member: CRC-32 and length modulo 2^32 of the
    uncompressed data. *)
Definition gzip_trailer (d : list byte) : list byte :=
  le.PutUint32 (crc32.ChecksumIEEE d)
    ++ le.PutUint32 (uint32 (N.of_nat (length d))).

(** The gzip member (RFC 1952) that frames [d]. *)
Definition gzip_member (d : list byte) : list byte :=
  gzip_header Byte.xff ++ deflate d ++ gzip_trailer d.

(** A half that claims to be initialised has its objects: the pointers
    the [else] branches dereference are not nil, and the write buffer is
    allocated. *)
Definition writer_ok (g : gzipCompressor) (h : heap) : Prop :=
  writerInitialised g = true ->
  exists buf zw,
    writeBuffer g = Some buf /\ gzipWriter g = Some zw /\ is_Some (h !! buf).

Definition reader_ok (g : gzipCompressor) : Prop :=
  readerInitialised g = true ->
  exists br zr d,
    bytesReader g = Some br /\ gzipReader g = Some zr
    /\ r_decompressor zr = Some d.

(** The write buffer, once there is one, is allocated. *)
Definition buffer_ok (g : gzipCompressor) (h : heap) : Prop :=
  forall buf, writeBuffer g = Some buf -> is_Some (h !! buf).

Definition wf (g : gzipCompressor) (h : heap) : Prop :=
  writer_ok g h /\ reader_ok g /\ buffer_ok g h.

(** The states a caller can bring a compressor to: it starts from
    [NewCompressor] and is only touched by [Compress] and [Decompress];
    between calls the caller may store to any slice but the private
    write buffer. *)
Inductive reachable : gzipCompressor -> heap -> Prop :=
| reach_new h :
    reachable NewCompressor h
| reach_store g h p bs :
    reachable g h ->
    writeBuffer g <> Some p ->
    reachable g (<[p := bs]> h)
| reach_Compress msg g h r g' h' :
    reachable g h ->
    Compress msg g h = Done (r, g', h') ->
    reachable g' h'
| reach_Decompress msg g h r g' h' :
    reachable g h ->
    Decompress msg g h = Done (r, g', h') ->
    reachable g' h'.

(** *** Valid gzip data

    RFC 1952, section 2.3, as [gzip.Reader] reads it: a header with its
    optional fields, then for each member a DEFLATE stream that the
    decoder runs through cleanly and the trailer of what it produced. *)
Definition hdr_extra (present : bool) (field : list byte) : Prop :=
  if present
  then exists e, field = le.PutUint16 (N.of_nat (length e)) ++ e
                 /\ N.of_nat (length e) < 2 ^ 16
  else field = [].

Definition hdr_string (present : bool) (field : list byte) : Prop :=
  if present
  then exists s, field = s ++ [Byte.x00] /\ (Byte.x00 ∉ s)
                 /\ (length s < 512)%nat
  else field = [].

Definition hdr_crc (present : bool) (before field : list byte) : Prop :=
  if present
  then field = le.PutUint16 (crc32.ChecksumIEEE before mod 2 ^ 16)
  else field = [].

Definition gzip_hdr (hdr : list byte) : Prop :=
  exists flg mtime xfl os extra name comment hcrc,
    let fixed := [gzipID1; gzipID2; gzipDeflate; flg] ++ mtime ++ [xfl; os] in
    length mtime = 4%nat
    /\ hdr_extra (flag_set flg flagExtra) extra
    /\ hdr_string (flag_set flg flagName) name
    /\ hdr_string (flag_set flg flagComment) comment
    /\ hdr_crc (flag_set flg flagHdrCrc)
         (fixed ++ extra ++ name ++ comment) hcrc
    /\ hdr = fixed ++ extra ++ name ++ comment ++ hcrc.

(** [gzip_bodies r d]: [r] is what follows a header in a valid stream
    that decodes to [d]. *)
Inductive gzip_bodies : list byte -> list byte -> Prop :=
| gzip_bodies_last body d :
    inflate (body ++ gzip_trailer d) = FlateRun d (length body) None ->
    gzip_bodies (body ++ gzip_trailer d) d
| gzip_bodies_more body d hdr rest d' :
    inflate (body ++ gzip_trailer d ++ hdr ++ rest)
    = FlateRun d (length body) None ->
    gzip_hdr hdr ->
    gzip_bodies rest d' ->
    gzip_bodies (body ++ gzip_trailer d ++ hdr ++ rest) (d ++ d').

(** [msg] is a series of one or more gzip members that decodes to [d]. *)
Definition gzip_stream (msg d : list byte) : Prop :=
  exists hdr r, gzip_hdr hdr /\ msg = hdr ++ r /\ gzip_bodies r d.

(** A call of one of the two stateful operations, and a sequence of
    such calls on the same instance. *)
Inductive call : Type :=
| CallCompress (msg : list byte)
| CallDecompress (msg : list byte).

Definition run (c : call) (g : gzipCompressor) (h : heap)
  : outcome (result * gzipCompressor * heap) :=
  match c with
  | CallCompress msg => Compress msg g h
  | CallDecompress msg => Decompress msg g h
  end.

Fixpoint run_all (cs : list call) (g : gzipCompressor) (h : heap)
  : outcome (gzipCompressor * heap) :=
  match cs with
  | [] => Done (g, h)
  | c :: cs => '(_, g, h) ← run c g h; run_all cs g h
  end.

(** The effect of one call on a well-formed state. *)
Definition call_effect (c : call) (g : gzipCompressor) (h : heap)
    (res : result) (g' : gzipCompressor) (h' : heap) : Prop :=
  wf g' h'
  /\ readerInitialised g' = readerInitialised g
  /\ (writerInitialised g = true ->
      writerInitialised g' = true /\ writeBuffer g' = writeBuffer g)
  /\ (forall q, is_Some (h !! q) -> writeBuffer g <> Some q ->
        h' !! q = h !! q /\ writeBuffer g' <> Some q)
  /\ ((exists e, res = (None, Some e))
      \/ (exists p, res = (Some p, None) /\ h !! p = None
            /\ is_Some (h' !! p) /\ writeBuffer g' <> Some p)).

(** [c] is what some call of [Compress] on a well-formed instance
    returned for the input [b]. *)
Definition Compress_output (b c : list byte) : Prop :=
  exists g h p g' h',
    wf g h /\ Compress b g h = Done ((Some p, None), g', h')
    /\ h' !! p = Some c.

End Vocabulary.

(** ** Auxiliary predicates of the proofs *)

(** [x] fits in 32 bits. *)
Definition fits32 (x : N) : Prop :=
  forall n, 32 <= n -> N.testbit x n = false.

(** Steps that parse an optional header field leave the source no longer
    and only ever touch the digest of the reader. *)
Definition hstep_frame (a : hstep) : Prop :=
  forall z r err z' r',
    a z r = (err, z', r') ->
    (length r' <= length r)%nat
    /\ r_err z' = r_err z /\ r_multistream z' = r_multistream z
    /\ r_size z' = r_size z /\ r_decompressor z' = r_decompressor z.

(** The rest of a header: on success the decompressor is fresh and the
    digest is zero, on error the decompressor is the old one. *)
Definition hstep_tail (a : hstep) : Prop :=
  forall z r err z' r',
    a z r = (err, z', r') ->
    (length r' <= length r)%nat
    /\ r_err z' = r_err z /\ r_multistream z' = r_multistream z
    /\ r_size z' = r_size z
    /\ match err with
       | Some _ => r_decompressor z' = r_decompressor z
       | None => r_decompressor z' = Some (FlateReader None) /\ r_digest z' = 0
       end.

(** A successful header step consumed a field of the header, and the
    digest covers it. *)
Definition hstep_sound (a : hstep) (P : list byte -> Prop) : Prop :=
  forall z r z' r' pre,
    r_digest z = crc32.ChecksumIEEE pre ->
    a z r = (None, z', r') ->
    exists field,
      r = field ++ r' /\ P field
      /\ r_digest z' = crc32.ChecksumIEEE (pre ++ field).

(** ** Vocabulary of the further properties *)

(** What a caller sees of a result pair: the bytes of the slice, and the
    error. *)
Definition observed (res : result) (h : heap) : option (list byte) * option error :=
  (res.1 ≫= (h !!.), res.2).

(** A header step reads the field it is given and extends the digest
    over it. *)
Definition hstep_complete (a : hstep) (P : list byte -> Prop) : Prop :=
  forall z c field rest,
    P field ->
    a (gzip_Reader_set_digest z c) (field ++ rest)
    = (None, gzip_Reader_set_digest z (crc32.Update c field), rest).

(** * Proofs *)

Arguments gzip_member : simpl never.
Arguments gzip_trailer : simpl never.
Arguments gzip_Writer_Write : simpl never.
Arguments gzip_Writer_Close : simpl never.
Arguments gzip_Writer_init : simpl never.
Arguments make : simpl never.
Arguments copy : simpl never.
Arguments Nat.leb : simpl never.

(** ** Bytes and little-endian words *)

Lemma byte_of_N_to_N n : Byte.to_N (byte_of_N n) = n mod 256.
Proof.
  unfold byte_of_N. pose proof (N.mod_upper_bound n 256 ltac:(lia)).
  destruct (Byte.of_N (n mod 256)) eqn:E.
  - by apply Byte.to_of_N in E.
  - apply Byte.of_N_None_iff in E. lia.
Qed.

Lemma to_N_lt b : Byte.to_N b < 256.
Proof. pose proof (Byte.to_N_bounded b). lia. Qed.

Lemma byte_of_N_of_to b : byte_of_N (Byte.to_N b) = b.
Proof.
  unfold byte_of_N. rewrite N.mod_small by apply to_N_lt.
  by rewrite Byte.of_to_N.
Qed.

Lemma to_N_bits_high b n : 8 <= n -> N.testbit (Byte.to_N b) n = false.
Proof.
  intros Hn. destruct (N.eq_dec (Byte.to_N b) 0) as [->|Hz]; [apply N.bits_0|].
  apply N.bits_above_log2. pose proof (to_N_lt b).
  assert (N.log2 (Byte.to_N b) < 8); [|lia].
  apply N.log2_lt_pow2; [lia|]. simpl. lia.
Qed.

Ltac bits_done :=
  repeat match goal with
  | |- context [N.testbit ?a ?b] => destruct (N.testbit a b)
  end; reflexivity.

Lemma Uint32_PutUint32 v : le.Uint32 (le.PutUint32 v) = v mod 2 ^ 32.
Proof.
  unfold le.Uint32, le.PutUint32. rewrite !byte_of_N_to_N.
  change 256 with (2 ^ 8). rewrite <- !N.land_ones.
  apply N.bits_inj; intros n.
  rewrite !N.lor_spec, !N.land_spec.
  destruct (N.ltb_spec n 8).
  { rewrite !N.shiftl_spec_low by lia. rewrite !N.ones_spec_low by lia.
    bits_done. }
  destruct (N.ltb_spec n 16).
  { rewrite (N.shiftl_spec_low _ 16), (N.shiftl_spec_low _ 24) by lia.
    rewrite N.shiftl_spec_high' by lia. rewrite N.land_spec, N.shiftr_spec'.
    rewrite (N.ones_spec_high 8 n) by lia. rewrite !N.ones_spec_low by lia.
    replace (n - 8 + 8) with n by lia. bits_done. }
  destruct (N.ltb_spec n 24).
  { rewrite (N.shiftl_spec_low _ 24) by lia.
    rewrite !N.shiftl_spec_high' by lia. rewrite !N.land_spec, !N.shiftr_spec'.
    rewrite (N.ones_spec_high 8 n), (N.ones_spec_high 8 (n - 8)) by lia.
    rewrite !N.ones_spec_low by lia.
    replace (n - 16 + 16) with n by lia. bits_done. }
  destruct (N.ltb_spec n 32).
  { rewrite !N.shiftl_spec_high' by lia. rewrite !N.land_spec, !N.shiftr_spec'.
    rewrite (N.ones_spec_high 8 n), (N.ones_spec_high 8 (n - 8)), (N.ones_spec_high 8 (n - 16)) by lia.
    rewrite !N.ones_spec_low by lia.
    replace (n - 24 + 24) with n by lia. bits_done. }
  rewrite !N.shiftl_spec_high' by lia. rewrite !N.land_spec, !N.shiftr_spec'.
  rewrite !N.ones_spec_high by lia. bits_done.
Qed.

Lemma PutUint32_Uint32 b : length b = 4%nat -> le.PutUint32 (le.Uint32 b) = b.
Proof.
  destruct b as [|b0 [|b1 [|b2 [|b3 [|? ?]]]]]; try done. intros _.
  unfold le.PutUint32, le.Uint32.
  assert (Hb : forall x c, x mod 256 = Byte.to_N c -> byte_of_N x = c).
  { intros x c Hx. rewrite <- (byte_of_N_of_to c), <- Hx.
    unfold byte_of_N. by rewrite N.Div0.mod_mod. }
  f_equal; [|f_equal; [|f_equal; [|f_equal]]]; apply Hb;
    change 256 with (2 ^ 8); rewrite <- N.land_ones;
    apply N.bits_inj; intros n; rewrite N.land_spec;
    (destruct (N.ltb_spec n 8);
     [ rewrite N.ones_spec_low by lia
     | rewrite N.ones_spec_high, to_N_bits_high by lia; apply andb_false_r ]);
    rewrite ?N.shiftr_spec', !N.lor_spec, andb_true_r.
  - rewrite !N.shiftl_spec_low by lia. bits_done.
  - rewrite (N.shiftl_spec_low _ 16), (N.shiftl_spec_low _ 24) by lia.
    rewrite N.shiftl_spec_high' by lia. rewrite to_N_bits_high by lia.
    replace (n + 8 - 8) with n by lia. bits_done.
  - rewrite (N.shiftl_spec_low _ 24) by lia.
    rewrite !N.shiftl_spec_high' by lia. rewrite !to_N_bits_high by lia.
    replace (n + 16 - 16) with n by lia. bits_done.
  - rewrite !N.shiftl_spec_high' by lia. rewrite !to_N_bits_high by lia.
    replace (n + 24 - 24) with n by lia. bits_done.
Qed.

(** ** CRC-32 stays within 32 bits *)

Lemma fits32_lt x : fits32 x <-> x < 2 ^ 32.
Proof.
  split.
  - intros Hx. destruct (N.eq_dec x 0) as [->|Hz]; [simpl; lia|].
    apply N.log2_lt_pow2; [lia|].
    destruct (N.lt_ge_cases (N.log2 x) 32) as [|Hge]; [done|].
    pose proof (N.bit_log2 x Hz) as Hb. rewrite Hx in Hb; done.
  - intros Hx n Hn. destruct (N.eq_dec x 0) as [->|Hz]; [apply N.bits_0|].
    apply N.bits_above_log2. apply N.log2_lt_pow2 in Hx; lia.
Qed.

Lemma fits32_lxor a b : fits32 a -> fits32 b -> fits32 (N.lxor a b).
Proof. intros Ha Hb n Hn. by rewrite N.lxor_spec, Ha, Hb. Qed.

Lemma fits32_shiftr a k : fits32 a -> fits32 (N.shiftr a k).
Proof. intros Ha n Hn. rewrite N.shiftr_spec'. apply Ha. lia. Qed.

Lemma fits32_shifts n c : fits32 c -> fits32 (crc32.shifts n c).
Proof.
  revert c. induction n as [|n IH]; intros c Hc; simpl; [done|].
  apply IH. destruct (N.odd c).
  - apply fits32_lxor; [by apply fits32_shiftr|].
    apply fits32_lt. vm_compute. done.
  - by apply fits32_shiftr.
Qed.

Lemma fits32_step c v : fits32 c -> fits32 (crc32.step c v).
Proof.
  intros Hc. unfold crc32.step. apply fits32_lxor; [|by apply fits32_shiftr].
  apply fits32_shifts. apply fits32_lxor.
  - intros n Hn. rewrite N.land_spec, Hc; done.
  - intros n Hn. apply to_N_bits_high. lia.
Qed.

Lemma crc32_Update_lt crc p : crc < 2 ^ 32 -> crc32.Update crc p < 2 ^ 32.
Proof.
  intros Hc. apply fits32_lt. unfold crc32.Update.
  assert (Hff : fits32 0xffffffff) by (apply fits32_lt; vm_compute; done).
  apply fits32_lxor; [|done].
  assert (Hs : fits32 (N.lxor crc 0xffffffff))
    by (apply fits32_lxor; [by apply fits32_lt|done]).
  revert Hs. generalize (N.lxor crc 0xffffffff).
  induction p as [|v p IH]; intros c Hc'; simpl; [done|].
  apply IH. by apply fits32_step.
Qed.

#[local] Arguments crc32.Update : simpl never.
#[local] Arguments crc32.ChecksumIEEE : simpl never.

Lemma lxor_ffffffff_involutive x : N.lxor (N.lxor x 0xffffffff) 0xffffffff = x.
Proof. by rewrite N.lxor_assoc, N.lxor_nilpotent, N.lxor_0_r. Qed.

Lemma crc32_Update_app c a b :
  crc32.Update (crc32.Update c a) b = crc32.Update c (a ++ b).
Proof.
  unfold crc32.Update. by rewrite lxor_ffffffff_involutive, fold_left_app.
Qed.

Lemma PutUint16_Uint16 b : length b = 2%nat -> le.PutUint16 (le.Uint16 b) = b.
Proof.
  destruct b as [|b0 [|b1 [|? ?]]]; try done. intros _.
  unfold le.PutUint16, le.Uint16.
  assert (Hb : forall x c, x mod 256 = Byte.to_N c -> byte_of_N x = c).
  { intros x c Hx. rewrite <- (byte_of_N_of_to c), <- Hx.
    unfold byte_of_N. by rewrite N.Div0.mod_mod. }
  f_equal; [|f_equal]; apply Hb;
    change 256 with (2 ^ 8); rewrite <- N.land_ones;
    apply N.bits_inj; intros n; rewrite N.land_spec;
    (destruct (N.ltb_spec n 8);
     [ rewrite N.ones_spec_low by lia
     | rewrite N.ones_spec_high, to_N_bits_high by lia; apply andb_false_r ]);
    rewrite ?N.shiftr_spec', !N.lor_spec, andb_true_r.
  - rewrite !N.shiftl_spec_low by lia. bits_done.
  - rewrite N.shiftl_spec_high' by lia. rewrite to_N_bits_high by lia.
    replace (n + 8 - 8) with n by lia. bits_done.
Qed.

Lemma Uint16_lt b : le.Uint16 b < 2 ^ 16.
Proof.
  destruct b as [|b0 [|b1 b]]; try (simpl; lia).
  unfold le.Uint16. set (x := N.lor _ _).
  destruct (N.eq_dec x 0) as [->|Hz]; [simpl; lia|].
  apply N.log2_lt_pow2; [lia|].
  destruct (N.lt_ge_cases (N.log2 x) 16) as [|Hge]; [done|].
  exfalso. pose proof (N.bit_log2 x Hz) as Hb. subst x.
  rewrite !N.lor_spec in Hb. rewrite !N.shiftl_spec_high' in Hb by lia.
  rewrite !to_N_bits_high in Hb by lia. done.
Qed.


(** ** The store, and the write side *)

Section Writer.
Context `{Flate}.

Lemma contents_insert_eq h p bs : contents (<[p := bs]> h) p = bs.
Proof. unfold contents. by rewrite lookup_insert_eq. Qed.

Lemma contents_insert_ne h p q bs : p <> q -> contents (<[p := bs]> h) q = contents h q.
Proof. intros. unfold contents. by rewrite lookup_insert_ne. Qed.

Lemma fresh_not_allocated (h : heap) : h !! fresh (dom h) = None.
Proof. apply not_elem_of_dom. apply is_fresh. Qed.

Lemma fresh_ne (h : heap) p : is_Some (h !! p) -> fresh (dom h) <> p.
Proof. intros Hp Heq. rewrite <- Heq, fresh_not_allocated in Hp. by destruct Hp. Qed.

(** [make] then [copy] of a whole slice: a fresh location with the same
    contents. *)
Lemma copy_make h src :
  is_Some (h !! src) ->
  copy (make (length (contents h src)) h).1 src
    (make (length (contents h src)) h).2
  = <[fresh (dom h) := contents h src]> h.
Proof.
  intros Hsrc. unfold copy, make. cbn [fst snd].
  assert (fresh (dom h) <> src) by (by apply fresh_ne).
  rewrite contents_insert_eq, contents_insert_ne by done.
  rewrite length_replicate, firstn_all, drop_replicate, Nat.sub_diag. simpl.
  rewrite app_nil_r. apply insert_insert_eq.
Qed.

(** [Write] then [Close] on a writer that was just made or reset append
    one gzip member to the destination. *)
Lemma gzip_Writer_Write_then_Close c w msg h :
  exists z1 h1 z2,
    gzip_Writer_Write (gzip_Writer_init c w) msg h
    = Done ((length msg, None), z1, h1)
    /\ gzip_Writer_Close z1 h1
       = Done (None, z2, <[w := contents h w ++ gzip_member msg]> h).
Proof.
  unfold gzip_Writer_Write, gzip_Writer_writeHeader, Buffer.Write. simpl.
  destruct c as [c|]; simpl; do 3 eexists; (split; [reflexivity|]).
  all: unfold gzip_Writer_Close, flate_Writer_Close, Buffer.Write; simpl.
  all: rewrite !contents_insert_eq, !insert_insert_eq.
  all: f_equal; f_equal; unfold gzip_member, gzip_trailer, crc32.ChecksumIEEE;
       rewrite N.add_0_l, <- !app_assoc; reflexivity.
Qed.

(** What [Compress] does, on any well-formed state: the buffer and a
    fresh slice both hold the member that frames [msg]. *)
Lemma Compress_spec msg g h :
  wf g h ->
  exists buf zw,
    let h1 := <[buf := gzip_member msg]> h in
    let p := fresh (dom h1) in
    Compress msg g h
    = Done ((Some p, None), set_writer g true (Some buf) (Some zw),
            <[p := gzip_member msg]> h1)
    /\ (if writerInitialised g then writeBuffer g = Some buf
        else buf = fresh (dom h)).
Proof.
  intros (Hw & _ & _). unfold Compress, resetWriter.
  assert (Hfin : forall buf,
    copy (fresh (dom (<[buf:=gzip_member msg]> h))) buf
      (<[fresh (dom (<[buf:=gzip_member msg]> h)) :=
           replicate (length (gzip_member msg)) Byte.x00]>
         (<[buf:=gzip_member msg]> h))
    = <[fresh (dom (<[buf:=gzip_member msg]> h)) := gzip_member msg]>
        (<[buf:=gzip_member msg]> h)).
  { intros buf.
    pose proof (copy_make (<[buf:=gzip_member msg]> h) buf) as Hcm.
    unfold make in Hcm. cbn [fst snd] in Hcm.
    rewrite contents_insert_eq in Hcm. apply Hcm.
    rewrite lookup_insert_eq; eauto. }
  destruct (writerInitialised g) eqn:Hinit; cbn.
  - destruct (Hw Hinit) as (buf & zw & Hb & Hz & Hbuf). rewrite Hb, Hz. cbn.
    exists buf.
    destruct (gzip_Writer_Write_then_Close (w_compressor zw) buf msg
                (Buffer.Reset buf h)) as (z1 & h1 & z2 & HW & HC).
    unfold gzip_Writer_Reset. rewrite HW. cbn. rewrite HC. cbn.
    exists z2. split; [|done].
    unfold Buffer.Reset, Buffer.Bytes, make. cbn.
    rewrite !contents_insert_eq, !insert_insert_eq. cbn [app].
    by rewrite Hfin.
  - unfold Buffer.new. cbn. set (buf := fresh (dom h)). exists buf.
    destruct (gzip_Writer_Write_then_Close None buf msg (<[buf := []]> h))
      as (z1 & h1 & z2 & HW & HC).
    unfold gzip_NewWriter. rewrite HW. cbn. rewrite HC. cbn.
    exists z2. split; [|done].
    unfold Buffer.Bytes, make. cbn.
    rewrite !contents_insert_eq, !insert_insert_eq. cbn [app].
    by rewrite Hfin.
Qed.
End Writer.

(** ** Reading a gzip header *)

Section HeaderParsing.
Context `{Flate}.

Lemma io_ReadFull_app a rest :
  io_ReadFull (length a) (a ++ rest) = (a, None, rest).
Proof.
  unfold io_ReadFull. rewrite length_app.
  destruct (Nat.ltb_spec (length a + length rest) (length a)); [lia|].
  by rewrite take_app_length, drop_app_length.
Qed.

Lemma io_ReadFull_length n r buf err r' :
  io_ReadFull n r = (buf, err, r') ->
  (length r' <= length r)%nat
  /\ (err = None -> (length r' + n = length r)%nat /\ r = buf ++ r').
Proof.
  unfold io_ReadFull. destruct (Nat.ltb_spec (length r) n); intros [= <- <- <-].
  - split; [simpl; lia|done].
  - rewrite length_drop. split; [lia|]. intros _.
    split; [lia|]. by rewrite take_drop.
Qed.

Lemma hseq_tail a b : hstep_frame a -> hstep_tail b -> hstep_tail (hseq a b).
Proof.
  intros Ha Hb z r err z' r'. unfold hseq.
  destruct (a z r) as [[[e|] z1] r1] eqn:E1.
  - intros [= <- <- <-]. apply Ha in E1. intuition (try lia; congruence).
  - intros E2. apply Ha in E1 as (? & ? & ? & ? & ?).
    apply Hb in E2 as (? & ? & ? & ? & ?).
    repeat split; try lia; try congruence.
    destruct err; [congruence|done].
Qed.

Lemma hwhen_frame c a : hstep_frame a -> hstep_frame (hwhen c a).
Proof.
  intros Ha. destruct c; [done|]. intros z r err z' r' [= <- <- <-]. done.
Qed.

Lemma readString_loop_frame i seen : hstep_frame (readString_loop i seen).
Proof.
  intros z r. revert i seen. induction r as [|b r IH]; intros i seen err z' r'.
  - simpl. destruct (512 <=? i)%nat; intros [= <- <- <-]; done.
  - simpl. destruct (512 <=? i)%nat; [intros [= <- <- <-]; done|].
    destruct (decide (b = Byte.x00)).
    + intros [= <- <- <-]. simpl. repeat split; lia.
    + intros E. apply IH in E. simpl. intuition (try lia; congruence).
Qed.

Lemma readString_frame : hstep_frame readString.
Proof.
  intros z r err z' r'. unfold readString.
  destruct (readString_loop 0 [] z r) as [[[e|] z1] r1] eqn:E;
    intros [= <- <- <-]; by apply readString_loop_frame in E.
Qed.

Lemma readExtra_frame : hstep_frame readExtra.
Proof.
  intros z r err z' r'. unfold readExtra.
  destruct (io_ReadFull 2 r) as [[buf [e|]] r1] eqn:E1.
  { intros [= <- <- <-]. apply io_ReadFull_length in E1. intuition (try lia; congruence). }
  destruct (io_ReadFull _ r1) as [[data [e|]] r2] eqn:E2;
    intros [= <- <- <-]; apply io_ReadFull_length in E1, E2; simpl;
    repeat split; lia.
Qed.

Lemma readHdrCrc_frame : hstep_frame readHdrCrc.
Proof.
  intros z r err z' r'. unfold readHdrCrc.
  destruct (io_ReadFull 2 r) as [[buf [e|]] r1] eqn:E1.
  { intros [= <- <- <-]. apply io_ReadFull_length in E1. intuition (try lia; congruence). }
  apply io_ReadFull_length in E1.
  destruct (decide _); intros [= <- <- <-]; repeat split; lia.
Qed.

Lemma startInflate_tail : hstep_tail startInflate.
Proof. intros z r err z' r' [= <- <- <-]. done. Qed.

Lemma readHeader_spec z r err z' r' :
  readHeader z r = (err, z', r') ->
  r_err z' = r_err z /\ r_multistream z' = r_multistream z
  /\ r_size z' = r_size z
  /\ match err with
     | Some _ =>
         (length r' <= length r)%nat /\ r_decompressor z' = r_decompressor z
     | None =>
         (length r' + 10 <= length r)%nat
         /\ r_decompressor z' = Some (FlateReader None) /\ r_digest z' = 0
     end.
Proof.
  unfold readHeader.
  destruct (io_ReadFull 10 r) as [[buf [e|]] r1] eqn:E1.
  { intros [= <- <- <-]. apply io_ReadFull_length in E1. intuition (try lia; congruence). }
  apply io_ReadFull_length in E1 as [? Hn]. destruct (Hn eq_refl) as [? ?].
  destruct buf as [|id1 [|id2 [|cm [|flg buf]]]];
    try (intros [= <- <- <-]; repeat split; done || lia).
  destruct (decide _); [|intros [= <- <- <-]; repeat split; done || lia].
  intros E.
  apply (hseq_tail _ _ (hwhen_frame _ _ readExtra_frame)
           (hseq_tail _ _ (hwhen_frame _ _ readString_frame)
              (hseq_tail _ _ (hwhen_frame _ _ readString_frame)
                 (hseq_tail _ _ (hwhen_frame _ _ readHdrCrc_frame)
                    startInflate_tail)))) in E.
  simpl in E. destruct E as (? & ? & ? & ? & ?).
  repeat split; try done. destruct err; [split; [lia|tauto]|split; [lia|tauto]].
Qed.

Lemma readHeader_gzip_header z rest :
  readHeader z (gzip_header Byte.xff ++ rest)
  = (None,
     {| r_decompressor := Some (FlateReader None); r_digest := 0;
        r_size := r_size z; r_err := r_err z;
        r_multistream := r_multistream z |},
     rest).
Proof.
  unfold readHeader.
  pose proof (io_ReadFull_app (gzip_header Byte.xff) rest) as E.
  change (length (gzip_header Byte.xff)) with 10%nat in E. rewrite E.
  reflexivity.
Qed.
Lemma io_ReadFull_ok n r buf r' :
  io_ReadFull n r = (buf, None, r') -> r = buf ++ r' /\ length buf = n.
Proof.
  intros E. apply io_ReadFull_length in E as [_ E].
  destruct (E eq_refl) as [Hl ->]. split; [done|].
  rewrite length_app in Hl. lia.
Qed.

Lemma readExtra_sound : hstep_sound readExtra (hdr_extra true).
Proof.
  intros z r z' r' pre Hdig. unfold readExtra.
  destruct (io_ReadFull 2 r) as [[buf [e|]] r1] eqn:E1; [done|].
  destruct (io_ReadFull _ r1) as [[data [e|]] r2] eqn:E2; [done|].
  intros [= <- <-].
  apply io_ReadFull_ok in E1 as [-> Hl1]. apply io_ReadFull_ok in E2 as [-> Hl2].
  exists (buf ++ data). split_and!.
  - by rewrite <- app_assoc.
  - exists data. rewrite Hl2, N2Nat.id. rewrite PutUint16_Uint16 by done.
    split; [done|apply Uint16_lt].
  - cbn. rewrite Hdig. unfold crc32.ChecksumIEEE.
    by rewrite !crc32_Update_app.
Qed.

Lemma readString_loop_sound i seen z r z' r' :
  readString_loop i seen z r = (None, z', r') ->
  exists s, r = s ++ Byte.x00 :: r' /\ (Byte.x00 ∉ s)
            /\ (i + length s < 512)%nat
            /\ z' = gzip_Reader_set_digest z
                      (crc32.Update (r_digest z) (seen ++ s ++ [Byte.x00])).
Proof.
  revert i seen. induction r as [|b r IH]; intros i seen; cbn [readString_loop].
  - destruct (Nat.leb_spec 512 i); done.
  - destruct (Nat.leb_spec 512 i); [done|].
    destruct (decide (b = Byte.x00)) as [->|Hb].
    + intros [= <- <-]. exists []. split_and!; try done.
      * apply not_elem_of_nil.
      * simpl. lia.
    + intros E. apply IH in E as (s & -> & Hs & Hl & ->).
      exists (b :: s). split_and!; try done.
      * apply not_elem_of_cons. split; [congruence|done].
      * simpl. lia.
      * by rewrite <- app_assoc.
Qed.

Lemma readString_sound : hstep_sound readString (hdr_string true).
Proof.
  intros z r z' r' pre Hdig. unfold readString.
  destruct (readString_loop 0 [] z r) as [[[e|] z1] r1] eqn:E; [done|].
  intros [= <- <-]. apply readString_loop_sound in E as (s & -> & Hs & Hl & ->).
  exists (s ++ [Byte.x00]). split_and!.
  - by rewrite <- app_assoc.
  - exists s. split_and!; try done; lia.
  - cbn. rewrite Hdig. unfold crc32.ChecksumIEEE. by rewrite crc32_Update_app.
Qed.

Lemma hwhen_sound c a P :
  hstep_sound a (P true) -> P false [] -> hstep_sound (hwhen c a) (P c).
Proof.
  intros Ha Hf. destruct c; [done|].
  intros z r z' r' pre Hdig [= <- <-]. exists []. by rewrite app_nil_r.
Qed.

Lemma readHeader_sound z r z' r' :
  readHeader z r = (None, z', r') ->
  exists hdr, gzip_hdr hdr /\ r = hdr ++ r'.
Proof.
  unfold readHeader.
  destruct (io_ReadFull 10 r) as [[buf [e|]] r1] eqn:E1; [done|].
  apply io_ReadFull_ok in E1 as [-> Hl].
  destruct buf as [|id1 [|id2 [|cm [|flg [|m0 [|m1 [|m2 [|m3 [|xfl [|os [|? ?]]]]]]]]]]];
    try done.
  destruct (decide _) as [(-> & -> & ->)|]; [|done].
  set (fixed := [gzipID1; gzipID2; gzipDeflate; flg; m0; m1; m2; m3; xfl; os]).
  remember (crc32.ChecksumIEEE fixed) as c0 eqn:Hc0.
  set (z0 := gzip_Reader_set_digest z c0).
  assert (Hd0 : r_digest z0 = crc32.ChecksumIEEE fixed) by (by rewrite <- Hc0).
  clearbody z0. clear Hc0 c0.
  unfold hseq.
  destruct (hwhen (flag_set flg flagExtra) readExtra z0 r1)
    as [[[e|] z1] r2] eqn:E2; [done|].
  apply (hwhen_sound _ _ hdr_extra readExtra_sound eq_refl _ _ _ _ _ Hd0)
    in E2 as (extra & -> & Hextra & Hd1).
  destruct (hwhen (flag_set flg flagName) readString z1 r2)
    as [[[e|] z2] r3] eqn:E3; [done|].
  apply (hwhen_sound _ _ hdr_string readString_sound eq_refl _ _ _ _ _ Hd1)
    in E3 as (name & -> & Hname & Hd2).
  destruct (hwhen (flag_set flg flagComment) readString z2 r3)
    as [[[e|] z3] r4] eqn:E4; [done|].
  apply (hwhen_sound _ _ hdr_string readString_sound eq_refl _ _ _ _ _ Hd2)
    in E4 as (comment & -> & Hcomment & Hd3).
  assert (Hcrc : forall z4 r5,
    hwhen (flag_set flg flagHdrCrc) readHdrCrc z3 r4 = (None, z4, r5) ->
    exists hcrc, r4 = hcrc ++ r5
      /\ hdr_crc (flag_set flg flagHdrCrc)
           (fixed ++ extra ++ name ++ comment) hcrc).
  { intros z4 r5. destruct (flag_set flg flagHdrCrc); cbn [hwhen].
    - unfold readHdrCrc.
      destruct (io_ReadFull 2 r4) as [[buf [e|]] r5'] eqn:E5; [done|].
      destruct (decide _) as [Heq|]; [|done]. intros [= <- <-].
      apply io_ReadFull_ok in E5 as [-> Hl5]. exists buf. split; [done|].
      cbn. rewrite <- (PutUint16_Uint16 buf) by done. rewrite Heq, Hd3.
      by rewrite <- !app_assoc.
    - intros [= <- <-]. exists []. split; reflexivity. }
  destruct (hwhen (flag_set flg flagHdrCrc) readHdrCrc z3 r4)
    as [[[e|] z4] r5] eqn:E5; [done|].
  destruct (Hcrc z4 r5 eq_refl) as (hcrc & -> & Hhcrc).
  intros [= <- <-].
  exists (fixed ++ extra ++ name ++ comment ++ hcrc). split.
  - exists flg, [m0; m1; m2; m3], xfl, os, extra, name, comment, hcrc.
    cbn zeta. split_and!; done.
  - subst fixed. by rewrite <- !app_assoc.
Qed.

Lemma readHeader_EOF z r z' r' :
  readHeader z r = (Some EOF, z', r') -> r = [].
Proof.
  unfold readHeader, io_ReadFull.
  destruct (Nat.ltb_spec (length r) 10).
  { destruct r; [done|]. intros [= ]. }
  destruct (take 10 r) as [|id1 [|id2 [|cm [|flg buf]]]]; try done.
  destruct (decide _); [|done].
  unfold hseq, hwhen, readExtra, readString, readHdrCrc, startInflate.
  repeat match goal with
  | |- context [if ?c then _ else _] => destruct c
  | |- context [match io_ReadFull ?n ?x with _ => _ end] =>
      destruct (io_ReadFull n x) as [[? [[]|]] ?]
  | |- context [match readString_loop ?i ?s ?z ?x with _ => _ end] =>
      destruct (readString_loop i s z x) as [[[[]|] ?] ?]
  end; cbn; try done.
Qed.

End HeaderParsing.

(** ** The read side *)

Section ReadSide.
Context `{Flate}.

(** The fuel [io_ReadAll] starts with is enough, and a reader that has a
    decompressor is read without a panic and keeps one. *)
Lemma gzip_ReadAll_total fuel z r acc :
  (length r <= fuel)%nat ->
  is_Some (r_decompressor z) ->
  exists bs err z' r',
    gzip_ReadAll fuel z r acc = Done (bs, err, z', r')
    /\ is_Some (r_decompressor z').
Proof.
  revert z r acc. induction fuel as [|fuel IH]; intros z r acc Hfuel [d Hd].
  all: cbn [gzip_ReadAll].
  all: destruct (r_err z) as [e|]; [by eauto 10|].
  all: rewrite Hd; cbn.
  all: destruct (run_status (inflate r)); [by eauto 10|].
  all: destruct (io_ReadFull 8 _) as [[buf [e|]] r2] eqn:E2; [by eauto 10|].
  all: destruct (decide _); [|by eauto 10].
  all: destruct (r_multistream z); [|by eauto 10].
  all: destruct (readHeader _ r2) as [[[e|] z3] r3] eqn:E3.
  all: apply readHeader_spec in E3; cbn in E3.
  all: apply io_ReadFull_length in E2 as [? _]; rewrite length_drop in *.
  all: try (do 4 eexists; split; [reflexivity|]; cbn;
            destruct E3 as (_ & _ & _ & _ & ->); by eauto).
  - lia.
  - apply IH; [lia|]. destruct E3 as (_ & _ & _ & _ & -> & _). by eauto.
Qed.

(** The trailer a writer puts after its DEFLATE stream. *)
Lemma trailer_check d :
  le.Uint32 (take 4 (gzip_trailer d)) = crc32.Update 0 d
  /\ le.Uint32 (drop 4 (gzip_trailer d)) = uint32 (0 + N.of_nat (length d)).
Proof.
  unfold gzip_trailer.
  change (take 4 (le.PutUint32 ?a ++ ?b)) with (le.PutUint32 a).
  change (drop 4 (le.PutUint32 ?a ++ ?b)) with b.
  rewrite !Uint32_PutUint32. unfold crc32.ChecksumIEEE, uint32. split.
  - apply N.mod_small. apply crc32_Update_lt. done.
  - by rewrite N.add_0_l, N.Div0.mod_mod.
Qed.

(** Reading one member written by [Compress], with a reader whose header
    has just been read. *)
Lemma gzip_ReadAll_member fuel d fr acc :
  flate_round_trip ->
  let z := {| r_decompressor := Some fr; r_digest := 0; r_size := 0;
              r_err := None; r_multistream := true |} in
  gzip_ReadAll fuel z
    (deflate d ++ gzip_trailer d) acc
  = Done (acc ++ d, None,
          {| r_decompressor := Some (FlateReader (Some EOF)); r_digest := 0;
             r_size := 0; r_err := Some EOF; r_multistream := true |},
          []).
Proof.
  intros RT z.
  assert (Hstep : forall f, gzip_ReadAll f z
    (deflate d ++ gzip_trailer d) acc
    = Done (acc ++ d, None,
          {| r_decompressor := Some (FlateReader (Some EOF)); r_digest := 0;
             r_size := 0; r_err := Some EOF; r_multistream := true |},
          [])); [|done].
  intros f. subst z. destruct f; cbn [gzip_ReadAll r_err r_decompressor deref mbind outcome_bind].
  all: rewrite RT; cbn [run_out run_used run_status].
  all: rewrite drop_app_length.
  all: pose proof (io_ReadFull_app (gzip_trailer d) []) as E;
       rewrite app_nil_r in E;
       change (length (gzip_trailer d)) with 8%nat in E;
       rewrite E.
  all: destruct (decide _) as [_|Hne]; [|by destruct Hne; apply trailer_check].
  all: reflexivity.
Qed.

Arguments gzip_ReadAll : simpl never.
Arguments readHeader : simpl never.

Lemma Decompress_member d g h :
  flate_round_trip ->
  wf g h ->
  exists g',
    let data := fresh (dom h) in
    let h1 := <[data := d]> h in
    let q := fresh (dom h1) in
    Decompress (gzip_member d) g h = Done ((Some q, None), g', <[q := d]> h1)
    /\ writerInitialised g' = writerInitialised g
    /\ readerInitialised g' = readerInitialised g
    /\ writeBuffer g' = writeBuffer g /\ gzipWriter g' = gzipWriter g.
Proof.
  intros RT (_ & Hr & _).
  assert (Hfin : forall g0 : gzipCompressor,
    (let '(data, h0) := alloc d h in
     err ← gzip_Reader_Close
             {| r_decompressor := Some (FlateReader (Some EOF)); r_digest := 0;
                r_size := 0; r_err := Some EOF; r_multistream := true |};
     match err with
     | Some e => Done ((None, Some e) : result, g0, h0)
     | None =>
         let '(decompData, h1) := make (length (contents h0 data)) h0 in
         let h2 := copy decompData data h1 in
         Done ((Some decompData, None), g0, h2)
     end)
    = Done ((Some (fresh (dom (<[fresh (dom h) := d]> h))), None), g0,
            <[fresh (dom (<[fresh (dom h) := d]> h)) := d]>
              (<[fresh (dom h) := d]> h))).
  { intros g0. unfold alloc. cbn.
    pose proof (copy_make (<[fresh (dom h) := d]> h) (fresh (dom h))) as Hcm.
    destruct (make _ _) as [q h'] eqn:Hm. cbn [fst snd] in Hcm.
    rewrite Hcm by (rewrite lookup_insert_eq; eauto).
    rewrite contents_insert_eq.
    unfold make in Hm. injection Hm as <- _. done. }
  unfold Decompress, resetReader.
  destruct (readerInitialised g) eqn:Hinit; cbn [negb].
  - destruct (Hr Hinit) as (br & zr & fr & Hbr & Hzr & Hfr).
    rewrite Hbr, Hzr. cbn [deref mbind outcome_bind].
    unfold bytes_Reader_Reset, gzip_Reader_Reset, gzip_member.
    rewrite readHeader_gzip_header. unfold gzip_Reader_set_err. cbn.
    unfold io_ReadAll. rewrite gzip_ReadAll_member by done. cbn [mbind outcome_bind].
    rewrite app_nil_l. eexists. split; [apply Hfin|]. cbn. by rewrite Hinit.
  - unfold bytes_NewReader, gzip_NewReader, gzip_Reader_Reset, gzip_member.
    rewrite readHeader_gzip_header. unfold gzip_Reader_set_err. cbn.
    unfold io_ReadAll. rewrite gzip_ReadAll_member by done. cbn [mbind outcome_bind].
    rewrite app_nil_l. eexists. split; [apply Hfin|]. cbn. by rewrite Hinit.
Qed.
(** What any call of [Decompress] does to a well-formed state: it
    returns; the write side and the read-side flag are as before; the
    store is only extended; a result slice is new. *)
Lemma Decompress_total msg g h :
  wf g h ->
  exists res g' h',
    Decompress msg g h = Done (res, g', h')
    /\ writerInitialised g' = writerInitialised g
    /\ readerInitialised g' = readerInitialised g
    /\ writeBuffer g' = writeBuffer g /\ gzipWriter g' = gzipWriter g
    /\ reader_ok g'
    /\ h ⊆ h'
    /\ ((exists e, res = (None, Some e))
        \/ (exists q, res = (Some q, None) /\ h !! q = None /\ is_Some (h' !! q))).
Proof.
  intros (_ & Hr & _).
  assert (Hsub1 : forall bs, h ⊆ <[fresh (dom h) := bs]> h).
  { intros bs. apply insert_subseteq, fresh_not_allocated. }
  assert (Hsub2 : forall bs h1, h ⊆ h1 -> h ⊆ <[fresh (dom h1) := bs]> h1).
  { intros bs h1 Hh. etrans; [done|]. apply insert_subseteq, fresh_not_allocated. }
  (* everything after a successful resetReader *)
  assert (Hrest : forall g0 zr br,
    is_Some (r_decompressor zr) ->
    (writerInitialised g0 = writerInitialised g
     /\ readerInitialised g0 = readerInitialised g
     /\ writeBuffer g0 = writeBuffer g /\ gzipWriter g0 = gzipWriter g) ->
    exists res g' h',
      ('(bs, err, zr, br) ← io_ReadAll zr br;
       let g := set_reader g0 (Some br) (Some zr) in
       let '(data, h) := alloc bs h in
       match err with
       | Some e => Done ((None, Some e) : result, g, h)
       | None =>
           err ← gzip_Reader_Close zr;
           match err with
           | Some e => Done ((None, Some e) : result, g, h)
           | None =>
               let '(decompData, h) := make (length (contents h data)) h in
               let h := copy decompData data h in
               Done ((Some decompData, None), g, h)
           end
       end) = Done (res, g', h')
      /\ writerInitialised g' = writerInitialised g
      /\ readerInitialised g' = readerInitialised g
      /\ writeBuffer g' = writeBuffer g /\ gzipWriter g' = gzipWriter g
      /\ reader_ok g'
      /\ h ⊆ h'
      /\ ((exists e, res = (None, Some e))
          \/ (exists q, res = (Some q, None) /\ h !! q = None /\ is_Some (h' !! q)))).
  { intros g0 zr br Hd (Hg1 & Hg2 & Hg3 & Hg4). unfold io_ReadAll.
    destruct (gzip_ReadAll_total (length br) zr br [] (le_n _) Hd)
      as (bs & err & z' & r' & -> & [d' Hd']).
    cbn [mbind outcome_bind]. unfold alloc.
    assert (Hok : reader_ok (set_reader g0 (Some r') (Some z'))).
    { intros _. cbn. eauto 10. }
    destruct err as [e|]; [by eauto 20|].
    unfold gzip_Reader_Close. rewrite Hd'. cbn [deref mbind outcome_bind].
    destruct (match fr_err d' with Some EOF => None | e => e end) as [e|];
      [by eauto 20|].
    pose proof (copy_make (<[fresh (dom h) := bs]> h) (fresh (dom h))) as Hcm.
    destruct (make _ _) as [q h2] eqn:Hm. cbn [fst snd] in Hcm.
    rewrite Hcm by (rewrite lookup_insert_eq; eauto).
    rewrite contents_insert_eq.
    unfold make in Hm. injection Hm as <- _.
    do 3 eexists. split; [reflexivity|]. repeat split; try done.
    - by apply Hsub2.
    - right. eexists. split; [done|]. split.
      + eapply lookup_weaken_None; [apply fresh_not_allocated|]. apply Hsub1.
      + rewrite lookup_insert_eq. eauto. }
  unfold Decompress, resetReader.
  destruct (readerInitialised g) eqn:Hinit; cbn [negb].
  - destruct (Hr Hinit) as (br & zr & fr & Hbr & Hzr & Hfr).
    rewrite Hbr, Hzr. cbn [deref mbind outcome_bind].
    unfold bytes_Reader_Reset, gzip_Reader_Reset.
    destruct (readHeader _ msg) as [[err z1] r1] eqn:E.
    apply readHeader_spec in E. cbn in E. destruct E as (_ & _ & _ & E).
    destruct err as [e|].
    + destruct E as [_ Hd]. destruct (decide (e = EOF)) as [->|Hne].
      * cbn [mbind outcome_bind deref gzipReader bytesReader set_reader].
        apply Hrest; [cbn; rewrite Hd, Hfr; eauto|done].
      * cbn. do 3 eexists. split; [reflexivity|]. cbn.
        split_and!; try done; [|by eauto].
        intros _. exists r1, (gzip_Reader_set_err z1 (Some e)), fr.
        cbn. split_and!; congruence.
    + destruct E as (_ & Hd & _).
      cbn [mbind outcome_bind deref gzipReader bytesReader set_reader].
      apply Hrest; [cbn; rewrite Hd; eauto|done].
  - unfold bytes_NewReader, gzip_NewReader, gzip_Reader_Reset.
    destruct (readHeader _ msg) as [[err z1] r1] eqn:E.
    apply readHeader_spec in E. cbn in E. destruct E as (_ & _ & _ & E).
    destruct err as [e|].
    + cbn. do 3 eexists. split; [reflexivity|]. cbn.
      split_and!; try done; [|by eauto].
      intros Hc. cbn in Hc. congruence.
    + destruct E as (_ & Hd & _).
      cbn [mbind outcome_bind deref gzipReader bytesReader set_reader].
      apply Hrest; [cbn; rewrite Hd; eauto|done].
Qed.
End ReadSide.

(** ** Calls on a well-formed instance *)

Section Calls.
Context `{Flate}.

Lemma Compress_effect msg g h :
  wf g h ->
  exists p g' h',
    Compress msg g h = Done ((Some p, None), g', h')
    /\ h' !! p = Some (gzip_member msg)
    /\ writerInitialised g' = true
    /\ call_effect (CallCompress msg) g h (Some p, None) g' h'.
Proof.
  intros Hwf. destruct (Compress_spec msg g h Hwf) as (buf & zw & HC & Hbuf).
  cbn zeta in HC. destruct Hwf as (Hw & Hr & Hb).
  set (h1 := <[buf := gzip_member msg]> h) in *.
  set (p := fresh (dom h1)) in *.
  assert (Hp1 : h1 !! p = None) by apply fresh_not_allocated.
  assert (Hpb : p <> buf).
  { intros ->. subst h1. rewrite lookup_insert_eq in Hp1. done. }
  assert (Hp : h !! p = None).
  { subst h1. by rewrite lookup_insert_ne in Hp1. }
  assert (Hbuf' : writeBuffer g = Some buf \/ h !! buf = None).
  { destruct (writerInitialised g); [by left|right].
    subst buf. apply fresh_not_allocated. }
  exists p, (set_writer g true (Some buf) (Some zw)), (<[p := gzip_member msg]> h1).
  split; [done|]. split; [by rewrite lookup_insert_eq|]. split; [done|].
  unfold call_effect. cbn. split_and!.
  - split_and!.
    + intros _. exists buf, zw. cbn. split_and!; try done.
      subst h1. rewrite lookup_insert_ne, lookup_insert_eq by done. eauto.
    + done.
    + intros b. cbn. intros [= <-].
      subst h1. rewrite lookup_insert_ne, lookup_insert_eq by done. eauto.
  - done.
  - intros Hi. rewrite Hi in Hbuf. done.
  - intros q Hq Hne.
    assert (q <> buf).
    { intros ->. destruct Hbuf' as [|Hn]; [done|]. rewrite Hn in Hq. by destruct Hq. }
    assert (q <> p) by (intros ->; rewrite Hp in Hq; by destruct Hq).
    split; [|congruence].
    subst h1. by rewrite !lookup_insert_ne.
  - right. exists p. split_and!; try done; [|congruence].
    rewrite lookup_insert_eq. eauto.
Qed.

Lemma Decompress_effect msg g h :
  wf g h ->
  exists res g' h',
    Decompress msg g h = Done (res, g', h')
    /\ call_effect (CallDecompress msg) g h res g' h'.
Proof.
  intros Hwf.
  destruct (Decompress_total msg g h Hwf)
    as (res & g' & h' & HD & Hwi & Hri & Hwb & Hgw & Hrok & Hsub & Hres).
  destruct Hwf as (Hw & Hr & Hb).
  exists res, g', h'. split; [done|]. unfold call_effect. split_and!.
  - split_and!; [|done|].
    + intros Hi. rewrite Hwi in Hi. destruct (Hw Hi) as (buf & zw & ? & ? & [x Hx]).
      exists buf, zw. split_and!; try congruence.
      exists x. by eapply lookup_weaken.
    + intros b Hbb. rewrite Hwb in Hbb. destruct (Hb b Hbb) as [x Hx].
      exists x. by eapply lookup_weaken.
  - done.
  - intros Hi. split; congruence.
  - intros q [x Hx] Hne. split; [|congruence].
    rewrite Hx. by eapply lookup_weaken.
  - destruct Hres as [?|(q & -> & Hq & Hq')]; [by left|right].
    exists q. split_and!; try done.
    rewrite Hwb. intros Hbq. destruct (Hb q Hbq) as [x Hx]. congruence.
Qed.

Lemma run_effect c g h :
  wf g h ->
  exists res g' h', run c g h = Done (res, g', h') /\ call_effect c g h res g' h'.
Proof.
  intros Hwf. destruct c as [msg|msg]; cbn [run].
  - destruct (Compress_effect msg g h Hwf) as (p & g' & h' & ? & _ & _ & ?). eauto 10.
  - by apply Decompress_effect.
Qed.

(** A slice the caller holds that is not the write buffer survives any
    sequence of calls. *)
Lemma run_all_frame cs g h q :
  wf g h -> is_Some (h !! q) -> writeBuffer g <> Some q ->
  exists g' h',
    run_all cs g h = Done (g', h') /\ wf g' h' /\ h' !! q = h !! q.
Proof.
  revert g h. induction cs as [|c cs IH]; intros g h Hwf Hq Hne; cbn [run_all].
  - eauto.
  - destruct (run_effect c g h Hwf) as (res & g1 & h1 & -> & Hwf1 & _ & _ & Hfr & _).
    cbn [mbind outcome_bind]. destruct (Hfr q Hq Hne) as [Heq Hne1].
    destruct (IH g1 h1 Hwf1) as (g' & h' & -> & ? & ?); [by rewrite Heq|done|].
    exists g', h'. split_and!; try done. congruence.
Qed.

Lemma wf_NewCompressor h : wf NewCompressor h.
Proof. split_and!; intros ?; done. Qed.

Lemma wf_store g h p bs : wf g h -> wf g (<[p := bs]> h).
Proof.
  intros (Hw & Hr & Hb). split_and!; [|done|].
  - intros Hi. destruct (Hw Hi) as (buf & zw & ? & ? & Hs). exists buf, zw.
    split_and!; try done. by apply lookup_insert_is_Some'; right.
  - intros b Hbb. apply lookup_insert_is_Some'. right. by apply Hb.
Qed.

(** Every reachable state is well formed, and its read side has never
    been marked initialised. *)
Lemma reachable_wf g h :
  reachable g h -> wf g h /\ readerInitialised g = false.
Proof.
  induction 1 as [h|g h p bs _ [IH1 IH2] Hne|msg g h r g' h' _ [IH1 IH2] HC
                 |msg g h r g' h' _ [IH1 IH2] HD].
  - split; [apply wf_NewCompressor|done].
  - split; [by apply wf_store|done].
  - destruct (Compress_effect msg g h IH1) as (p & g1 & h1 & HC' & _ & _ & Hwf & Hri & _).
    rewrite HC in HC'. injection HC' as -> -> ->. split; congruence.
  - destruct (Decompress_effect msg g h IH1) as (res & g1 & h1 & HD' & Hwf & Hri & _).
    rewrite HD in HD'. injection HD' as -> -> ->. split; congruence.
Qed.
End Calls.

(** ** The stored-block coder satisfies the laws of [Flate] *)

Module stored_facts.
Import stored.

#[local] Arguments Nat.leb : simpl never.
#[local] Arguments Nat.ltb : simpl never.
#[local] Arguments N.land : simpl never.
#[local] Arguments N.lxor : simpl never.
#[local] Arguments N.shiftr : simpl never.
#[local] Arguments N.shiftl : simpl never.
#[local] Arguments N.lor : simpl never.

Lemma Uint16_PutUint16 v : v < 2 ^ 16 -> le.Uint16 (le.PutUint16 v) = v.
Proof.
  intros Hv. unfold le.Uint16, le.PutUint16. rewrite !byte_of_N_to_N.
  change 256 with (2 ^ 8). rewrite <- !N.land_ones.
  apply N.bits_inj; intros n. rewrite !N.lor_spec, !N.land_spec.
  destruct (N.ltb_spec n 8).
  { rewrite N.shiftl_spec_low, N.ones_spec_low by lia. bits_done. }
  rewrite N.shiftl_spec_high' by lia. rewrite N.land_spec, N.shiftr_spec'.
  rewrite (N.ones_spec_high 8 n) by lia. replace (n - 8 + 8) with n by lia.
  destruct (N.ltb_spec n 16).
  { rewrite N.ones_spec_low by lia. bits_done. }
  rewrite N.ones_spec_high by lia.
  assert (N.testbit v n = false) as ->; [|done].
  destruct (N.eq_dec v 0) as [->|Hz]; [apply N.bits_0|].
  apply N.bits_above_log2. apply N.log2_lt_pow2 in Hv; lia.
Qed.

Lemma lxor_ffff_lt v : v < 2 ^ 16 -> N.lxor v 0xffff < 2 ^ 16.
Proof.
  intros Hv. destruct (N.eq_dec (N.lxor v 0xffff) 0) as [->|Hz]; [done|].
  apply N.log2_lt_pow2; [lia|].
  eapply N.le_lt_trans; [apply N.log2_lxor|].
  apply N.max_lub_lt; [|done].
  destruct (N.eq_dec v 0) as [->|Hz']; [done|]. apply N.log2_lt_pow2; lia.
Qed.

Lemma block_step f final d rest out used :
  (length d <= maxStoreBlockSize)%nat ->
  unstore (S f) (block final d ++ rest) out used
  = if final then FlateRun (out ++ d) (used + 5 + length d) None
    else unstore f rest (out ++ d) (used + 5 + length d).
Proof.
  intros Hd. unfold block, maxStoreBlockSize in *.
  assert (Hlen : N.of_nat (length d) < 2 ^ 16) by lia.
  cbn [unstore app le.PutUint16].
  change [byte_of_N ?v; byte_of_N (N.shiftr ?v 8)] with (le.PutUint16 v).
  assert (Hhd : (N.land (N.shiftr (Byte.to_N (if final then Byte.x01 else Byte.x00)) 1) 3 =? 0) = true)
    by (by destruct final).
  rewrite Hhd. cbn [negb].
  rewrite !Uint16_PutUint16 by (done || by apply lxor_ffff_lt).
  rewrite N.eqb_refl. cbn [negb]. rewrite Nat2N.id.
  destruct (Nat.ltb_spec (length (d ++ rest)) (length d)) as [Hlt|_];
    [rewrite length_app in Hlt; lia|].
  rewrite take_app_length, drop_app_length. by destruct final.
Qed.

Lemma block_length final d : length (block final d) = (5 + length d)%nat.
Proof. reflexivity. Qed.

Lemma block_prefix_fails f final d n out used :
  (length d <= maxStoreBlockSize)%nat ->
  (n < 5 + length d)%nat ->
  run_status (unstore f (take n (block final d)) out used) <> None.
Proof.
  intros Hd Hn. destruct f as [|f]; [done|].
  unfold block, maxStoreBlockSize in *.
  assert (Hlen : N.of_nat (length d) < 2 ^ 16) by lia.
  assert (Hhd : (N.land (N.shiftr (Byte.to_N (if final then Byte.x01 else Byte.x00)) 1) 3 =? 0) = true)
    by (by destruct final).
  destruct n as [|[|[|[|[|n]]]]]; cbn [take app le.PutUint16 unstore firstn];
    try (rewrite Hhd; cbn [negb]; done); try done.
  change [byte_of_N ?v; byte_of_N (N.shiftr ?v 8)] with (le.PutUint16 v).
  rewrite Hhd; cbn [negb].
  rewrite !Uint16_PutUint16 by (done || by apply lxor_ffff_lt).
  rewrite N.eqb_refl. cbn [negb]. rewrite Nat2N.id.
  destruct (Nat.ltb_spec (length (take n d)) (length d)) as [_|Hge]; [done|].
  rewrite length_take in Hge. lia.
Qed.

Lemma max_pos : (0 < maxStoreBlockSize)%nat.
Proof. unfold maxStoreBlockSize. lia. Qed.

Lemma unstore_store fuel : forall d rest out used f,
  (length d <= fuel)%nat ->
  (length (store fuel d) <= f)%nat ->
  unstore f (store fuel d ++ rest) out used
  = FlateRun (out ++ d) (used + length (store fuel d)) None.
Proof.
  pose proof max_pos as Hmax.
  induction fuel as [|fuel IH]; intros d rest out used f Hd Hf; cbn [store] in *.
  - destruct d; [|simpl in Hd; lia].
    rewrite block_length in Hf. destruct f as [|f]; [simpl in Hf; lia|].
    rewrite block_step by (simpl; lia). rewrite block_length. f_equal. simpl; lia.
  - destruct (Nat.leb_spec (length d) maxStoreBlockSize) as [Hle|Hgt].
    + rewrite block_length in Hf. destruct f as [|f]; [lia|].
      rewrite block_step by done. rewrite block_length. f_equal. lia.
    + rewrite length_app, block_length, length_take in Hf.
      destruct f as [|f]; [lia|].
      rewrite <- app_assoc, block_step by (rewrite length_take; lia).
      rewrite IH by (rewrite ?length_drop; lia).
      rewrite <- app_assoc, take_drop, length_app, block_length, !length_take.
      f_equal. lia.
Qed.

Lemma round_trip : @flate_round_trip flate.
Proof.
  intros d rest. cbn. unfold inflate, deflate.
  rewrite unstore_store; [done..|rewrite length_app; lia].
Qed.

Lemma unstore_prefix fuel : forall d n out used f,
  (length d <= fuel)%nat ->
  (n < length (store fuel d))%nat ->
  run_status (unstore f (take n (store fuel d)) out used) <> None.
Proof.
  pose proof max_pos as Hmax.
  induction fuel as [|fuel IH]; intros d n out used f Hd Hn; cbn [store] in *.
  - apply block_prefix_fails; [destruct d; simpl in *; lia|].
    by rewrite block_length in Hn.
  - destruct (Nat.leb_spec (length d) maxStoreBlockSize) as [Hle|Hgt].
    + apply block_prefix_fails; [done|]. by rewrite block_length in Hn.
    + set (d0 := take maxStoreBlockSize d) in *.
      assert (Hd0 : length d0 = maxStoreBlockSize)
        by (subst d0; rewrite length_take; lia).
      destruct (Nat.lt_ge_cases n (5 + length d0)) as [Hlt|Hge].
      * rewrite take_app_le by (rewrite block_length; lia).
        apply block_prefix_fails; [lia|done].
      * rewrite take_app_ge by (rewrite block_length; lia).
        destruct f as [|f]; [done|].
        rewrite block_step by lia.
        apply IH; [rewrite length_drop; lia|].
        rewrite length_app, !block_length in *. lia.
Qed.

Lemma prefix_fails : @flate_prefix_fails flate.
Proof.
  intros d n Hn. cbn in *. unfold inflate, deflate in *.
  by apply unstore_prefix.
Qed.

End stored_facts.

(** ** Lemmas for the claims *)

Section ClaimLemmas.
Context `{Flate}.

Lemma gzip_member_length d :
  length (gzip_member d) = (10 + length (deflate d) + 8)%nat.
Proof.
  unfold gzip_member, gzip_trailer. rewrite !length_app. simpl. lia.
Qed.

Lemma Compress_output_member b c : Compress_output b c <-> c = gzip_member b.
Proof.
  split.
  - intros (g & h & p & g' & h' & Hwf & HC & Hc).
    destruct (Compress_effect b g h Hwf) as (p1 & g1 & h1 & HC' & Hp & _).
    rewrite HC in HC'. injection HC' as <- <- <-. congruence.
  - intros ->.
    destruct (Compress_effect b NewCompressor ∅ (wf_NewCompressor ∅))
      as (p1 & g1 & h1 & HC' & Hp & _).
    exists NewCompressor, ∅, p1, g1, h1. split_and!; done.
Qed.

Lemma gzip_ReadAll_err fuel z r acc e :
  r_err z = Some e ->
  gzip_ReadAll fuel z r acc = Done (acc, ReadAll_err e, z, r).
Proof. intros He. destruct fuel; cbn [gzip_ReadAll]; by rewrite He. Qed.

(** With the read side uninitialised, a header error is the result. *)
Lemma Decompress_header_error msg g h e z1 r1 :
  readerInitialised g = false ->
  readHeader {| r_decompressor := None; r_digest := 0; r_size := 0;
                r_err := None; r_multistream := true |} msg
  = (Some e, z1, r1) ->
  Decompress msg g h
  = Done ((None, Some e), set_reader g (Some r1) (gzipReader g), h).
Proof.
  intros Hinit Hh. unfold Decompress, resetReader. rewrite Hinit. cbn [negb].
  unfold bytes_NewReader, gzip_NewReader, gzip_Reader_Reset. cbn.
  rewrite Hh. reflexivity.
Qed.

(** With the read side uninitialised, an error while reading the body of
    a member written by this package is the result. *)
Lemma Decompress_body_error body g h e bs z2 r2 :
  readerInitialised g = false ->
  (forall fuel,
     gzip_ReadAll fuel
       {| r_decompressor := Some (FlateReader None); r_digest := 0;
          r_size := 0; r_err := None; r_multistream := true |} body []
     = Done (bs, Some e, z2, r2)) ->
  exists g' h',
    Decompress (gzip_header Byte.xff ++ body) g h = Done ((None, Some e), g', h').
Proof.
  intros Hinit Hb. unfold Decompress, resetReader. rewrite Hinit. cbn [negb].
  unfold bytes_NewReader, gzip_NewReader, gzip_Reader_Reset.
  rewrite readHeader_gzip_header. unfold gzip_Reader_set_err. cbn.
  unfold io_ReadAll. rewrite Hb. cbn. eauto.
Qed.

Lemma readHeader_bad_magic z msg :
  take 3 msg <> [gzipID1; gzipID2; gzipDeflate] ->
  exists e z' r', readHeader z msg = (Some e, z', r').
Proof.
  intros Hm. unfold readHeader, io_ReadFull.
  destruct (Nat.ltb_spec (length msg) 10); [by eauto|].
  destruct msg as [|id1 [|id2 [|cm [|flg msg]]]]; try (simpl in *; lia).
  cbn [take firstn]. 
  destruct (decide _) as [(-> & -> & ->)|]; [|by eauto].
  by destruct Hm.
Qed.

Lemma trailer_unique b t :
  length t = 8%nat ->
  le.Uint32 (take 4 t) = crc32.Update 0 b ->
  le.Uint32 (drop 4 t) = uint32 (0 + N.of_nat (length b)) ->
  t = gzip_trailer b.
Proof.
  intros Hl H1 H2. rewrite <- (take_drop 4 t).
  rewrite <- (PutUint32_Uint32 (take 4 t)) by (rewrite length_take; lia).
  rewrite <- (PutUint32_Uint32 (drop 4 t)) by (rewrite length_drop; lia).
  rewrite H1, H2. by rewrite N.add_0_l.
Qed.

Lemma readHeader_short z msg :
  (length msg < 10)%nat ->
  exists e, readHeader z msg = (Some e, z, []).
Proof.
  intros Hl. unfold readHeader, io_ReadFull.
  destruct (Nat.ltb_spec (length msg) 10); [by eauto|lia].
Qed.

(** The write side does follow the two-state discipline. *)
Lemma resetWriter_binds_then_rebinds g h :
  wf g h ->
  exists buf zw,
    resetWriter g h
    = Done (set_writer g true (Some buf) (Some zw), <[buf := []]> h)
    /\ if writerInitialised g
       then writeBuffer g = Some buf
            /\ exists zw0, gzipWriter g = Some zw0
                           /\ zw = gzip_Writer_Reset zw0 buf
       else buf = fresh (dom h) /\ zw = gzip_NewWriter buf.
Proof.
  intros (Hw & _). unfold resetWriter.
  destruct (writerInitialised g) eqn:Hinit; cbn [negb].
  - destruct (Hw Hinit) as (buf & zw & Hb & Hz & _). rewrite Hb, Hz.
    cbn. eauto 10.
  - cbn. eauto 10.
Qed.
(** Whatever [io.ReadAll] returns without error from a reader whose
    header was just read is the decoding of a valid series of members. *)
Lemma gzip_ReadAll_sound fuel : forall z r acc bs z' r',
  r_err z = None -> r_digest z = 0 -> r_size z = 0 ->
  r_multistream z = true ->
  gzip_ReadAll fuel z r acc = Done (bs, None, z', r') ->
  exists d, bs = acc ++ d /\ gzip_bodies r d.
Proof.
  induction fuel as [|fuel IH]; intros z r acc bs z' r' Herr Hdig Hsize Hms.
  all: cbn [gzip_ReadAll]; rewrite Herr, Hdig, Hsize, Hms.
  all: destruct (r_decompressor z) as [fr|]; [|done].
  all: cbn [deref mbind outcome_bind].
  all: destruct (inflate r) as [out used [fe|]] eqn:Hinf;
         cbn [run_out run_used run_status]; [done|].
  all: destruct (io_ReadFull 8 (drop used r)) as [[buf [e|]] r2] eqn:E2;
         [done|].
  all: apply io_ReadFull_ok in E2 as [Hr Hl].
  all: destruct (decide _) as [[H1 H2]|]; [|done].
  all: apply (trailer_unique out buf Hl) in H1; [|done]; subst buf.
  all: assert (Hused : (used < length r)%nat)
         by (destruct (Nat.lt_ge_cases used (length r)); [done|];
             by rewrite drop_ge in Hr).
  all: assert (Hbody : length (take used r) = used)
         by (rewrite length_take; lia).
  all: assert (Hsplit : r = take used r ++ gzip_trailer out ++ r2)
         by (by rewrite <- Hr, take_drop).
  all: destruct (readHeader _ r2) as [[[e|] z3] r3] eqn:E3.
  all: try (destruct e; try done; intros [= <- <- <-];
            apply readHeader_EOF in E3 as ->; rewrite app_nil_r in Hsplit;
            exists out; split; [done|]; rewrite Hsplit;
            apply gzip_bodies_last; by rewrite <- Hsplit, Hbody).
  - done.
  - intros Hrec.
    pose proof E3 as E3'.
    apply readHeader_spec in E3' as (He & Hm & Hs & _ & _ & Hd).
    apply readHeader_sound in E3 as (hdr & Hhdr & ->).
    apply IH in Hrec as (d' & -> & Hd'); try done.
    exists (out ++ d'). split; [by rewrite app_assoc|].
    rewrite Hsplit. apply gzip_bodies_more; try done.
    by rewrite <- Hsplit, Hbody.
Qed.

(** With the read side uninitialised, data comes back only from a valid
    gzip stream, and it is what the stream decodes to. *)
Lemma Decompress_sound msg g h q g' h' :
  readerInitialised g = false ->
  Decompress msg g h = Done ((Some q, None), g', h') ->
  exists d, h' !! q = Some d /\ gzip_stream msg d.
Proof.
  intros Hinit. unfold Decompress, resetReader. rewrite Hinit. cbn [negb].
  unfold bytes_NewReader, gzip_NewReader, gzip_Reader_Reset.
  destruct (readHeader _ msg) as [[[e|] z1] r1] eqn:E1; [done|].
  cbn [mbind outcome_bind deref gzipReader bytesReader set_reader].
  pose proof E1 as E1'.
  apply readHeader_spec in E1' as (He & Hm & Hs & _ & _ & Hd).
  apply readHeader_sound in E1 as (hdr & Hhdr & ->).
  unfold io_ReadAll.
  destruct (gzip_ReadAll _ _ r1 []) as [[[[bs err] z2] r2]| |] eqn:E2; [|done..].
  cbn [mbind outcome_bind]. unfold alloc.
  destruct err as [e|]; [done|].
  apply gzip_ReadAll_sound in E2 as (d & Hbs & Hbodies); try done.
  rewrite app_nil_l in Hbs. subst bs.
  destruct (gzip_Reader_Close z2) as [[e|]| |]; try done.
  cbn [mbind outcome_bind].
  pose proof (copy_make (<[fresh (dom h) := d]> h) (fresh (dom h))) as Hcm.
  unfold make in Hcm |- *. cbn [fst snd] in Hcm.
  rewrite Hcm by (rewrite lookup_insert_eq; eauto).
  rewrite contents_insert_eq. intros [= <- <- <-].
  exists d. split; [by rewrite lookup_insert_eq|].
  exists hdr, r1. done.
Qed.
End ClaimLemmas.

(** * The claims *)

Section Claims.
Context `{Flate}.

(** C1 (round trip).  For every byte sequence [b] (the empty one and any
    length below, at or above the threshold included), on every
    well-formed instance, [Compress b] returns a slice without error, and
    [Decompress] applied to the contents of that slice returns a slice
    that holds exactly [b]: on the same instance right after the call,
    and on any well-formed instance at all.  The only fact used about
    DEFLATE is that the decoder inverts the encoder. *)
Theorem Decompress_Compress_round_trip (b : list byte) g h :
  flate_round_trip ->
  wf g h ->
  exists p g1 h1,
    Compress b g h = Done ((Some p, None), g1, h1)
    /\ (exists q g2 h2,
          Decompress (contents h1 p) g1 h1 = Done ((Some q, None), g2, h2)
          /\ h2 !! q = Some b)
    /\ (forall gd hd,
          wf gd hd ->
          exists q g2 h2,
            Decompress (contents h1 p) gd hd = Done ((Some q, None), g2, h2)
            /\ h2 !! q = Some b).
Proof.
  intros RT Hwf.
  destruct (Compress_effect b g h Hwf)
    as (p & g1 & h1 & HC & Hp & _ & Hwf1 & _).
  exists p, g1, h1. split; [done|].
  unfold contents. rewrite Hp.
  change (default [] (Some ?x)) with x.
  assert (Hany : forall gd hd,
    wf gd hd ->
    exists q g2 h2,
      Decompress (gzip_member b) gd hd = Done ((Some q, None), g2, h2)
      /\ h2 !! q = Some b).
  { intros gd hd Hd.
    destruct (Decompress_member b gd hd RT Hd) as (g2 & HD & _).
    cbn zeta in HD. do 3 eexists. split; [exact HD|].
    by rewrite lookup_insert_eq. }
  split; [by apply Hany|done].
Qed.

(** C9 (Compress cannot fail).  On every well-formed instance and for
    every input, [Compress] returns a slice and a nil error: neither the
    write nor the close error branch is taken, because the destination is
    an in-memory buffer whose [Write] never reports an error.  The slice
    holds the gzip member that frames the input. *)
Theorem Compress_never_fails (msg : list byte) g h :
  wf g h ->
  exists p g' h',
    Compress msg g h = Done ((Some p, None), g', h')
    /\ h' !! p = Some (gzip_member msg).
Proof.
  intros Hwf.
  destruct (Compress_effect msg g h Hwf) as (p & g' & h' & HC & Hp & _).
  eauto 10.
Qed.

(** C10 (the pre-check accepts what Compress produces).  For every input
    [b], the bytes [Compress b] returns pass [IsDecompressable]: a member
    has a 10-byte header and an 8-byte trailer, so it is longer than 10
    bytes whatever the DEFLATE stream is. *)
Theorem Compress_output_IsDecompressable (b : list byte) g h :
  wf g h ->
  exists p g' h',
    Compress b g h = Done ((Some p, None), g', h')
    /\ IsDecompressable g' (contents h' p) = true.
Proof.
  intros Hwf.
  destruct (Compress_effect b g h Hwf) as (p & g' & h' & HC & Hp & _).
  exists p, g', h'. split; [done|].
  unfold IsDecompressable, contents. rewrite Hp.
  change (default [] (Some ?x)) with x.
  apply Nat.ltb_lt. rewrite gzip_member_length. lia.
Qed.

(** C7 (the one-byte scenario).  [IsCompressable] is false for the
    sequence [[0x41]], and still [Compress] succeeds on it and its result
    decompresses to [[0x41]]: [Compress] does not consult the
    predicate. *)
Theorem Compress_one_byte_round_trip g h :
  flate_round_trip ->
  wf g h ->
  IsCompressable g [Byte.x41] = false
  /\ exists p g1 h1,
       Compress [Byte.x41] g h = Done ((Some p, None), g1, h1)
       /\ exists q g2 h2,
            Decompress (contents h1 p) g1 h1 = Done ((Some q, None), g2, h2)
            /\ h2 !! q = Some [Byte.x41].
Proof.
  intros RT Hwf. split; [reflexivity|].
  destruct (Compress_effect [Byte.x41] g h Hwf)
    as (p & g1 & h1 & HC & Hp & _ & Hwf1 & _).
  exists p, g1, h1. split; [done|].
  unfold contents. rewrite Hp.
  change (default [] (Some ?x)) with x.
  destruct (Decompress_member [Byte.x41] g1 h1 RT Hwf1) as (g2 & HD & _).
  cbn zeta in HD. do 3 eexists. split; [exact HD|].
  by rewrite lookup_insert_eq.
Qed.

(** C8 (independent ownership).  The slice a successful [Compress] or
    [Decompress] returns was not allocated before the call, is not the
    instance's write buffer, and holds the same bytes after any sequence
    of further calls of either operation on the same instance, whatever
    their inputs. *)
Theorem returned_slice_is_not_aliased c g h p g1 h1 :
  wf g h ->
  run c g h = Done ((Some p, None), g1, h1) ->
  h !! p = None
  /\ is_Some (h1 !! p)
  /\ writeBuffer g1 <> Some p
  /\ forall cs, exists g2 h2,
       run_all cs g1 h1 = Done (g2, h2) /\ h2 !! p = h1 !! p.
Proof.
  intros Hwf Hrun.
  destruct (run_effect c g h Hwf)
    as (res & g' & h' & Hrun' & Hwf1 & _ & _ & _ & Hres).
  rewrite Hrun in Hrun'. injection Hrun' as <- <- <-.
  destruct Hres as [[e He]|(p' & [= <-] & Hp & Hp1 & Hne)]; [done|].
  split_and!; try done. intros cs.
  destruct (run_all_frame cs g1 h1 p Hwf1 Hp1 Hne) as (g2 & h2 & ? & _ & ?).
  eauto.
Qed.

(** C4 (corruption is rejected).  On every reachable instance, and for a
    DEFLATE coder whose decoder inverts its encoder and fails on a stream
    cut short, [Decompress] returns data only when its input is a valid
    series of gzip members, and then the data that series decodes to;
    it returns no data and an error
    - on every input that is not a valid series of gzip members,
    - on any input that does not begin with the gzip magic and method
      bytes (so on all bytes that are not gzip data at first sight),
    - on every proper prefix of a [Compress] output,
    - on a [Compress] output in which one of the eight trailer bytes was
      changed; the error is then [gzip.ErrChecksum]. *)
Theorem Decompress_rejects_corrupt_input g h :
  flate_round_trip ->
  flate_prefix_fails ->
  reachable g h ->
  (forall msg q g' h',
     Decompress msg g h = Done ((Some q, None), g', h') ->
     exists d, h' !! q = Some d /\ gzip_stream msg d)
  /\ (forall msg,
        ~ (exists d, gzip_stream msg d) ->
        exists e g' h', Decompress msg g h = Done ((None, Some e), g', h'))
  /\ (forall msg,
        take 3 msg <> [gzipID1; gzipID2; gzipDeflate] ->
        exists e g' h', Decompress msg g h = Done ((None, Some e), g', h'))
  /\ (forall b c n,
        Compress_output b c -> (n < length c)%nat ->
        exists e g' h',
          Decompress (take n c) g h = Done ((None, Some e), g', h'))
  /\ (forall b c i x,
        Compress_output b c ->
        (length c - 8 <= i < length c)%nat -> c !! i <> Some x ->
        exists g' h',
          Decompress (<[i := x]> c) g h
          = Done ((None, Some ErrChecksum), g', h')).
Proof.
  intros RT PF Hreach. apply reachable_wf in Hreach as [Hwf Hinit].
  split_and!.
  - intros msg q g' h'. by apply Decompress_sound.
  - intros msg Hbad.
    destruct (Decompress_total msg g h Hwf)
      as (res & g' & h' & HD & _ & _ & _ & _ & _ & _ & Hres).
    destruct Hres as [[e ->]|(q & -> & _)]; [by eauto|].
    destruct Hbad. apply Decompress_sound in HD as (d & _ & Hd); by eauto.
  - intros msg Hm.
    destruct (readHeader_bad_magic
                {| r_decompressor := None; r_digest := 0; r_size := 0;
                   r_err := None; r_multistream := true |} msg Hm)
      as (e & z' & r' & Hh).
    rewrite (Decompress_header_error _ _ _ _ _ _ Hinit Hh). eauto.
  - intros b c n ->%Compress_output_member Hn.
    rewrite gzip_member_length in Hn. unfold gzip_member.
    destruct (Nat.lt_ge_cases n 10) as [Hn10|Hn10].
    { (* cut inside the header *)
      edestruct (readHeader_short
                {| r_decompressor := None; r_digest := 0; r_size := 0;
                   r_err := None; r_multistream := true |}
                (take n (gzip_header Byte.xff ++ deflate b ++ gzip_trailer b)))
        as (e & Hh); [rewrite length_take; lia|].
      rewrite (Decompress_header_error _ _ _ _ _ _ Hinit Hh). eauto. }
    rewrite take_app_ge by done.
    change (length (gzip_header Byte.xff)) with 10%nat.
    destruct (Nat.lt_ge_cases (n - 10) (length (deflate b))) as [Hnb|Hnb].
    { (* cut inside the DEFLATE stream *)
      rewrite take_app_le by lia.
      specialize (PF b (n - 10)%nat Hnb).
      destruct (run_status (inflate (take (n - 10) (deflate b))))
        as [fe|] eqn:Hst; [|done].
      eexists. eapply Decompress_body_error; [done|].
      intros [|fuel];
        cbn [gzip_ReadAll r_err r_decompressor deref mbind outcome_bind];
        rewrite Hst; reflexivity. }
    (* cut inside the trailer *)
    rewrite take_app_ge by done.
    set (k := (n - 10 - length (deflate b))%nat).
    assert (Hk : (k < 8)%nat) by lia.
    eexists. eapply Decompress_body_error; [done|].
    intros [|fuel];
      cbn [gzip_ReadAll r_err r_decompressor deref mbind outcome_bind];
      rewrite RT; cbn [run_out run_used run_status]; rewrite drop_app_length;
      unfold io_ReadFull;
      (destruct (Nat.ltb_spec (length (take k (gzip_trailer b))) 8)
         as [_|Hge]; [reflexivity|rewrite length_take in Hge; lia]).
  - intros b c i x ->%Compress_output_member Hi Hx.
    rewrite gzip_member_length in Hi. unfold gzip_member in *.
    rewrite app_assoc in *.
    assert (Hpre : length (gzip_header Byte.xff ++ deflate b)
                   = (10 + length (deflate b))%nat)
      by (by rewrite length_app).
    rewrite insert_app_r_alt by lia.
    rewrite lookup_app_r in Hx by lia. rewrite Hpre in *.
    set (j := (i - (10 + length (deflate b)))%nat) in *.
    set (t := <[j := x]> (gzip_trailer b)).
    assert (Hlt : length t = 8%nat) by (subst t; by rewrite length_insert).
    assert (Hne : t <> gzip_trailer b).
    { intros Heq. apply Hx. rewrite <- Heq. subst t.
      apply list_lookup_insert_eq.
      change (length (gzip_trailer b)) with 8%nat. lia. }
    rewrite <- app_assoc.
    eapply Decompress_body_error; [done|].
    intros [|fuel];
      cbn [gzip_ReadAll r_err r_decompressor deref mbind outcome_bind];
      rewrite RT; cbn [run_out run_used run_status]; rewrite drop_app_length.
    all: pose proof (io_ReadFull_app t []) as E; rewrite app_nil_r, Hlt in E;
      rewrite E.
    all: destruct (decide _) as [[H1 H2]|_]; [|reflexivity].
    all: destruct Hne; by apply trailer_unique.
Qed.

(** C6 (code defect: end of stream is fatal on every run).  Take any
    state a caller can reach in which the read side has its readers,
    built by an earlier [Decompress], and an input over which resetting
    that gzip reader signals [io.EOF].  The input is then empty, and the
    flag [readerInitialised] is still false (see C3): [resetReader] does
    not reset the existing reader, where line 100 would drop the
    [io.EOF], but calls [gzip.NewReader] and returns its [io.EOF], so
    [Decompress] fails with [io.EOF].  The existing gzip reader stays as
    it was. *)
Theorem end_of_stream_is_fatal_on_every_run g h br zr msg :
  reachable g h ->
  bytesReader g = Some br ->
  gzipReader g = Some zr ->
  (gzip_Reader_Reset zr (bytes_Reader_Reset br msg)).1.1 = Some EOF ->
  msg = []
  /\ readerInitialised g = false
  /\ exists g',
       resetReader msg g = Done (Some EOF, g')
       /\ Decompress msg g h = Done ((None, Some EOF), g', h)
       /\ gzipReader g' = Some zr.
Proof.
  intros Hr Hbr Hzr Hreset. apply reachable_wf in Hr as [_ Hinit].
  assert (Hmsg : msg = []).
  { unfold gzip_Reader_Reset, bytes_Reader_Reset in Hreset.
    destruct (readHeader _ msg) as [[err z1] r1] eqn:E.
    cbn [fst] in Hreset. subst err. by apply readHeader_EOF in E. }
  subst msg. split; [done|]. split; [done|].
  exists (set_reader g (Some []) (gzipReader g)). split_and!.
  - unfold resetReader. rewrite Hinit. reflexivity.
  - by apply (Decompress_header_error [] g h EOF
                {| r_decompressor := None; r_digest := 0; r_size := 0;
                   r_err := None; r_multistream := true |} []).
  - exact Hzr.
Qed.

(** C3 (the read side never becomes bound).  In every state reachable
    from [NewCompressor] the flag [readerInitialised] is still false, so
    every call of [resetReader] takes the first branch and builds a new
    [bytes.Reader] and a new [gzip.Reader]; compare
    [resetWriter_binds_then_rebinds] for the write side. *)
Theorem read_side_is_never_bound g h :
  reachable g h ->
  readerInitialised g = false
  /\ forall msg,
       resetReader msg g
       = (let '(zr, err, br) := gzip_NewReader (bytes_NewReader msg) in
          match err with
          | Some e => Done (Some e, set_reader g (Some br) (gzipReader g))
          | None => Done (None, set_reader g (Some br) zr)
          end).
Proof.
  intros Hreach. apply reachable_wf in Hreach as [_ Hinit].
  split; [done|]. intros msg. unfold resetReader. by rewrite Hinit.
Qed.

End Claims.

(** C5 (threshold boundary).  The threshold constant is 128;
    [IsCompressable] is false for inputs of at most 128 bytes and true
    for longer ones. *)
Theorem IsCompressable_threshold g (msg : list byte) :
  compressionThresholdBytes = 128%nat
  /\ ((length msg <= compressionThresholdBytes)%nat -> IsCompressable g msg = false)
  /\ ((compressionThresholdBytes < length msg)%nat -> IsCompressable g msg = true).
Proof.
  unfold IsCompressable. split; [done|]. split; intros Hl.
  - by apply Nat.ltb_ge.
  - by apply Nat.ltb_lt.
Qed.

(** C2, as amended (decodability floor).  [IsDecompressable] is false
    for inputs of at most 10 bytes and true for longer ones: the
    comparison is strict, so an input of exactly the header length is
    refused. *)
Theorem IsDecompressable_floor g (msg : list byte) :
  ((length msg <= 10)%nat -> IsDecompressable g msg = false)
  /\ ((10 < length msg)%nat -> IsDecompressable g msg = true).
Proof.
  unfold IsDecompressable. split; intros Hl.
  - by apply Nat.ltb_ge.
  - by apply Nat.ltb_lt.
Qed.

(** C2 as stated fails: an input of exactly 10 bytes is at the minimum
    header length and [IsDecompressable] is false for it. *)
Lemma IsDecompressable_at_header_length :
  ~ (forall g (msg : list byte),
       ((length msg < 10)%nat -> IsDecompressable g msg = false)
       /\ ((10 <= length msg)%nat -> IsDecompressable g msg = true)).
Proof.
  intros Hc.
  destruct (Hc NewCompressor (replicate 10 Byte.x00)) as [_ Hge].
  specialize (Hge (le_n _)). discriminate Hge.
Qed.

(** * The theorems at work: the stored-block coder, a new compressor *)

Section Witnesses.
#[local] Existing Instance stored.flate.

Lemma Decompress_Compress_round_trip_witness :
  flate_round_trip /\ wf NewCompressor ∅
  /\ exists p g1 h1,
       Compress [Byte.x41; Byte.x42; Byte.x43] NewCompressor ∅
       = Done ((Some p, None), g1, h1)
       /\ (exists q g2 h2,
             Decompress (contents h1 p) g1 h1 = Done ((Some q, None), g2, h2)
             /\ h2 !! q = Some [Byte.x41; Byte.x42; Byte.x43])
       /\ (forall gd hd,
             wf gd hd ->
             exists q g2 h2,
               Decompress (contents h1 p) gd hd
               = Done ((Some q, None), g2, h2)
               /\ h2 !! q = Some [Byte.x41; Byte.x42; Byte.x43]).
Proof.
  split; [exact stored_facts.round_trip|].
  split; [apply wf_NewCompressor|].
  apply Decompress_Compress_round_trip;
    [exact stored_facts.round_trip|apply wf_NewCompressor].
Defined.

Lemma Compress_never_fails_witness :
  wf NewCompressor ∅
  /\ exists p g' h',
       Compress [] NewCompressor ∅ = Done ((Some p, None), g', h')
       /\ h' !! p = Some (gzip_member []).
Proof.
  split; [apply wf_NewCompressor|].
  apply Compress_never_fails, wf_NewCompressor.
Defined.

Lemma Compress_output_IsDecompressable_witness :
  wf NewCompressor ∅
  /\ exists p g' h',
       Compress [] NewCompressor ∅ = Done ((Some p, None), g', h')
       /\ IsDecompressable g' (contents h' p) = true.
Proof.
  split; [apply wf_NewCompressor|].
  apply Compress_output_IsDecompressable, wf_NewCompressor.
Defined.

Lemma Compress_one_byte_round_trip_witness :
  flate_round_trip /\ wf NewCompressor ∅
  /\ IsCompressable NewCompressor [Byte.x41] = false
  /\ exists p g1 h1,
       Compress [Byte.x41] NewCompressor ∅ = Done ((Some p, None), g1, h1)
       /\ exists q g2 h2,
            Decompress (contents h1 p) g1 h1 = Done ((Some q, None), g2, h2)
            /\ h2 !! q = Some [Byte.x41].
Proof.
  split; [exact stored_facts.round_trip|].
  split; [apply wf_NewCompressor|].
  apply Compress_one_byte_round_trip;
    [exact stored_facts.round_trip|apply wf_NewCompressor].
Defined.

Lemma returned_slice_is_not_aliased_witness :
  wf NewCompressor ∅
  /\ exists p g1 h1,
       run (CallCompress [Byte.x41]) NewCompressor ∅
       = Done ((Some p, None), g1, h1)
       /\ (∅ : heap) !! p = None
       /\ is_Some (h1 !! p)
       /\ writeBuffer g1 <> Some p
       /\ forall cs, exists g2 h2,
            run_all cs g1 h1 = Done (g2, h2) /\ h2 !! p = h1 !! p.
Proof.
  split; [apply wf_NewCompressor|].
  eexists _, _, _. split; [vm_compute; reflexivity|].
  apply (returned_slice_is_not_aliased (CallCompress [Byte.x41])
           NewCompressor ∅);
    [apply wf_NewCompressor|vm_compute; reflexivity].
Defined.

Lemma Decompress_rejects_corrupt_input_witness :
  flate_round_trip /\ flate_prefix_fails /\ reachable NewCompressor ∅
  /\ (forall msg q g' h',
        Decompress msg NewCompressor ∅ = Done ((Some q, None), g', h') ->
        exists d, h' !! q = Some d /\ gzip_stream msg d)
  /\ (forall msg,
        ~ (exists d, gzip_stream msg d) ->
        exists e g' h',
          Decompress msg NewCompressor ∅ = Done ((None, Some e), g', h'))
  /\ (forall msg,
        take 3 msg <> [gzipID1; gzipID2; gzipDeflate] ->
        exists e g' h',
          Decompress msg NewCompressor ∅ = Done ((None, Some e), g', h'))
  /\ (forall b c n,
        Compress_output b c -> (n < length c)%nat ->
        exists e g' h',
          Decompress (take n c) NewCompressor ∅
          = Done ((None, Some e), g', h'))
  /\ (forall b c i x,
        Compress_output b c ->
        (length c - 8 <= i < length c)%nat -> c !! i <> Some x ->
        exists g' h',
          Decompress (<[i := x]> c) NewCompressor ∅
          = Done ((None, Some ErrChecksum), g', h')).
Proof.
  split; [exact stored_facts.round_trip|].
  split; [exact stored_facts.prefix_fails|].
  split; [apply reach_new|].
  apply Decompress_rejects_corrupt_input;
    [exact stored_facts.round_trip|exact stored_facts.prefix_fails
    |apply reach_new].
Defined.

Lemma end_of_stream_is_fatal_on_every_run_witness :
  exists q g h br zr,
    Decompress (gzip_member [Byte.x41]) NewCompressor ∅
    = Done ((Some q, None), g, h)
    /\ reachable g h
    /\ bytesReader g = Some br
    /\ gzipReader g = Some zr
    /\ (gzip_Reader_Reset zr (bytes_Reader_Reset br [])).1.1 = Some EOF
    /\ [] = ([] : list byte)
    /\ readerInitialised g = false
    /\ exists g',
         resetReader [] g = Done (Some EOF, g')
         /\ Decompress [] g h = Done ((None, Some EOF), g', h)
         /\ gzipReader g' = Some zr.
Proof.
  do 5 eexists. split; [vm_compute; reflexivity|].
  match goal with
  | |- reachable ?g ?h /\ _ =>
      assert (Hr : reachable g h)
        by (eapply (reach_Decompress (gzip_member [Byte.x41]) NewCompressor ∅);
            [apply reach_new|vm_compute; reflexivity])
  end.
  split; [exact Hr|].
  split; [reflexivity|]. split; [reflexivity|]. split; [reflexivity|].
  eapply (end_of_stream_is_fatal_on_every_run _ _ _ _ [] Hr); reflexivity.
Defined.

Lemma read_side_is_never_bound_witness :
  reachable NewCompressor ∅
  /\ readerInitialised NewCompressor = false
  /\ forall msg,
       resetReader msg NewCompressor
       = (let '(zr, err, br) := gzip_NewReader (bytes_NewReader msg) in
          match err with
          | Some e =>
              Done (Some e,
                    set_reader NewCompressor (Some br) (gzipReader NewCompressor))
          | None => Done (None, set_reader NewCompressor (Some br) zr)
          end).
Proof.
  split; [apply reach_new|].
  apply (read_side_is_never_bound NewCompressor ∅), reach_new.
Defined.
End Witnesses.

(** The failing run of C3, evaluated: a new compressor decompresses the
    same member twice; after each call the read-side flag is false, while
    one [Compress] call sets the write-side flag. *)
Example reader_flag_after_two_Decompress :
  let member := @gzip_member stored.flate [Byte.x41] in
  match @Decompress stored.flate member NewCompressor ∅ with
  | Done ((Some _, None), g1, h1) =>
      readerInitialised g1 = false
      /\ match @Decompress stored.flate member g1 h1 with
         | Done ((Some _, None), g2, h2) =>
             readerInitialised g2 = false
             /\ match @Compress stored.flate [Byte.x41] g2 h2 with
                | Done (_, g3, _) => writerInitialised g3 = true
                | _ => False
                end
         | _ => False
         end
  | _ => False
  end.
Proof. vm_compute. repeat split. Qed.

(** The failing run of C6, evaluated: a new compressor compresses one
    byte and decompresses the output, which builds the readers; the next
    call, on the empty input, fails with [io.EOF]. *)
Example empty_input_after_a_Decompress :
  match @Compress stored.flate [Byte.x41] NewCompressor ∅ with
  | Done ((Some x, None), g1, h1) =>
      match @Decompress stored.flate (contents h1 x) g1 h1 with
      | Done ((Some _, None), g2, h2) =>
          is_Some (gzipReader g2)
          /\ exists g3 h3,
               @Decompress stored.flate [] g2 h2
               = Done ((None, Some EOF), g3, h3)
      | _ => False
      end
  | _ => False
  end.
Proof. vm_compute. split; [by eexists|]. by do 2 eexists. Qed.

(** * Further properties *)

(** ** The decoder accepts every valid header *)

Lemma crc32_Update_nil c : crc32.Update c [] = c.
Proof. unfold crc32.Update. cbn [fold_left]. apply lxor_ffffffff_involutive. Qed.

Lemma readExtra_complete : hstep_complete readExtra (hdr_extra true).
Proof.
  intros z c field rest (e & -> & Hlen). unfold readExtra.
  rewrite <- app_assoc.
  pose proof (io_ReadFull_app (le.PutUint16 (N.of_nat (length e))) (e ++ rest)) as E1.
  change (length (le.PutUint16 _)) with 2%nat in E1. rewrite E1.
  rewrite stored_facts.Uint16_PutUint16 by done. rewrite Nat2N.id.
  rewrite io_ReadFull_app. cbn [r_digest gzip_Reader_set_digest].
  by rewrite crc32_Update_app.
Qed.

Lemma readString_loop_complete s : forall i seen z rest,
  Byte.x00 ∉ s -> (i + length s < 512)%nat ->
  readString_loop i seen z (s ++ Byte.x00 :: rest)
  = (None,
     gzip_Reader_set_digest z
       (crc32.Update (r_digest z) (seen ++ s ++ [Byte.x00])),
     rest).
Proof.
  induction s as [|b s IH]; intros i seen z rest Hs Hi; cbn [readString_loop app].
  - destruct (Nat.leb_spec 512 i); [simpl in Hi; lia|].
    destruct (decide _); done.
  - destruct (Nat.leb_spec 512 i); [simpl in Hi; lia|].
    apply not_elem_of_cons in Hs as [Hb Hs].
    destruct (decide (b = Byte.x00)); [congruence|].
    rewrite IH by (done || simpl in Hi; lia). by rewrite <- app_assoc.
Qed.

Lemma readString_complete : hstep_complete readString (hdr_string true).
Proof.
  intros z c field rest (s & -> & Hs & Hl). unfold readString.
  rewrite <- app_assoc. cbn [app].
  rewrite readString_loop_complete by (done || lia). done.
Qed.

Lemma hwhen_complete c a (P : bool -> list byte -> Prop) :
  hstep_complete a (P true) -> (forall f, P false f -> f = []) ->
  hstep_complete (hwhen c a) (P c).
Proof.
  intros Ha Hf. destruct c; [done|].
  intros z d field rest ->%Hf. cbn. by rewrite crc32_Update_nil.
Qed.

Lemma readHeader_complete z hdr rest :
  gzip_hdr hdr ->
  readHeader z (hdr ++ rest)
  = (None,
     {| r_decompressor := Some (FlateReader None); r_digest := 0;
        r_size := r_size z; r_err := r_err z;
        r_multistream := r_multistream z |},
     rest).
Proof.
  intros (flg & mtime & xfl & os & extra & name & comment & hcrc
          & Hm & Hextra & Hname & Hcomment & Hcrc & ->).
  cbn zeta in Hcrc.
  destruct mtime as [|m0 [|m1 [|m2 [|m3 [|? ?]]]]]; try done. clear Hm.
  cbn [app] in *.
  pose (fixed := [gzipID1; gzipID2; gzipDeflate; flg; m0; m1; m2; m3; xfl; os]).
  change (gzipID1 :: gzipID2 :: gzipDeflate :: flg :: m0 :: m1 :: m2 :: m3
            :: xfl :: os :: ?t) with (fixed ++ t) in Hcrc |- *.
  unfold readHeader. rewrite <- !app_assoc.
  pose proof (io_ReadFull_app fixed (extra ++ name ++ comment ++ hcrc ++ rest)) as E.
  change (length fixed) with 10%nat in E. rewrite E.
  cbn [fixed]. destruct (decide _) as [_|Hn]; [|by destruct Hn].
  fold fixed. unfold hseq.
  rewrite (hwhen_complete _ _ hdr_extra readExtra_complete) by (done || by intros ?).
  rewrite (hwhen_complete _ _ hdr_string readString_complete) by (done || by intros ?).
  rewrite (hwhen_complete _ _ hdr_string readString_complete) by (done || by intros ?).
  unfold crc32.ChecksumIEEE. rewrite !crc32_Update_app.
  fold (crc32.ChecksumIEEE (fixed ++ extra ++ name ++ comment)).
  destruct (flag_set flg flagHdrCrc); cbn [hwhen hdr_crc] in *; subst hcrc.
  - unfold readHdrCrc.
    pose proof (io_ReadFull_app
      (le.PutUint16 (crc32.ChecksumIEEE (fixed ++ extra ++ name ++ comment) mod 2 ^ 16))
      rest) as E2.
    change (length (le.PutUint16 _)) with 2%nat in E2. rewrite E2.
    rewrite stored_facts.Uint16_PutUint16
      by (apply N.mod_upper_bound; done).
    cbn [r_digest gzip_Reader_set_digest].
    destruct (decide _) as [_|Hn]; [done|by destruct Hn].
  - done.
Qed.

(** ** Lemmas on calls, streams and header steps *)

Section FurtherLemmas.
Context `{Flate}.

Lemma gzip_trailer_length d : length (gzip_trailer d) = 8%nat.
Proof. reflexivity. Qed.

Lemma gzip_hdr_length hdr : gzip_hdr hdr -> (10 <= length hdr)%nat.
Proof.
  intros (flg & mtime & xfl & os & extra & name & comment & hcrc
          & Hm & _ & _ & _ & _ & ->).
  rewrite !length_app, Hm. simpl. lia.
Qed.

Lemma gzip_bodies_length r d : gzip_bodies r d -> (8 <= length r)%nat.
Proof.
  destruct 1; rewrite !length_app, gzip_trailer_length; lia.
Qed.

(** [io.ReadAll] decodes all of a valid series of members. *)
Lemma gzip_ReadAll_complete r d :
  gzip_bodies r d ->
  forall fuel z acc fr,
    (length r <= fuel)%nat ->
    r_err z = None -> r_decompressor z = Some fr ->
    r_digest z = 0 -> r_size z = 0 -> r_multistream z = true ->
    exists z',
      gzip_ReadAll fuel z r acc = Done (acc ++ d, None, z', [])
      /\ r_decompressor z' = Some (FlateReader (Some EOF)).
Proof.
  induction 1 as [body d Hinf|body d hdr rest d' Hinf Hhdr Hrest IH];
    intros fuel z acc fr Hfuel Herr Hfr Hdig Hsize Hms.
  - destruct fuel; cbn [gzip_ReadAll]; rewrite Herr, Hfr, Hdig, Hsize, Hms.
    all: cbn [deref mbind outcome_bind].
    all: rewrite Hinf; cbn [run_out run_used run_status].
    all: rewrite drop_app_length.
    all: pose proof (io_ReadFull_app (gzip_trailer d) []) as E;
         rewrite app_nil_r in E;
         change (length (gzip_trailer d)) with 8%nat in E; rewrite E.
    all: destruct (decide _) as [_|Hne]; [|by destruct Hne; apply trailer_check].
    all: eexists; split; reflexivity.
  - rewrite !length_app, gzip_trailer_length in Hfuel.
    pose proof (gzip_hdr_length hdr Hhdr).
    destruct fuel as [|fuel]; [lia|].
    cbn [gzip_ReadAll]. rewrite Herr, Hfr, Hdig, Hsize, Hms.
    cbn [deref mbind outcome_bind].
    rewrite Hinf; cbn [run_out run_used run_status].
    rewrite drop_app_length.
    pose proof (io_ReadFull_app (gzip_trailer d) (hdr ++ rest)) as E.
    change (length (gzip_trailer d)) with 8%nat in E. rewrite E.
    destruct (decide _) as [_|Hne]; [|by destruct Hne; apply trailer_check].
    rewrite readHeader_complete by done.
    cbn [r_size r_err r_multistream].
    edestruct (IH fuel) as (z' & -> & Hz'); try reflexivity; [lia|].
    rewrite app_assoc. eauto.
Qed.

Arguments gzip_ReadAll : simpl never.
Arguments readHeader : simpl never.

Lemma run_reachable c g h res g' h' :
  reachable g h -> run c g h = Done (res, g', h') -> reachable g' h'.
Proof.
  intros Hr. destruct c as [msg|msg]; cbn [run]; intros Hc.
  - by eapply reach_Compress.
  - by eapply reach_Decompress.
Qed.

Lemma run_all_reachable cs : forall g h,
  reachable g h ->
  exists g' h', run_all cs g h = Done (g', h') /\ reachable g' h'.
Proof.
  induction cs as [|c cs IH]; intros g h Hr; cbn [run_all]; [by eauto|].
  destruct (run_effect c g h (proj1 (reachable_wf g h Hr)))
    as (res & g1 & h1 & Hrun & _).
  rewrite Hrun. cbn [mbind outcome_bind].
  apply IH. by eapply run_reachable.
Qed.

(** With the read side uninitialised, what [Decompress] returns is a
    function of its input alone. *)
Lemma Decompress_uninit_observed msg g1 h1 g2 h2 r1 g1' h1' r2 g2' h2' :
  readerInitialised g1 = false -> readerInitialised g2 = false ->
  Decompress msg g1 h1 = Done (r1, g1', h1') ->
  Decompress msg g2 h2 = Done (r2, g2', h2') ->
  observed r1 h1' = observed r2 h2'.
Proof.
  intros Hi1 Hi2. unfold Decompress, resetReader. rewrite Hi1, Hi2. cbn [negb].
  destruct (gzip_NewReader (bytes_NewReader msg)) as [[zr [e|]] br].
  { cbn. intros [= <- <- <-] [= <- <- <-]. done. }
  cbn [mbind outcome_bind gzipReader bytesReader set_reader].
  destruct zr as [zr|]; [|done]. cbn [deref mbind outcome_bind].
  destruct (io_ReadAll zr br) as [[[[bs err] zr'] br']| |]; [|done..].
  cbn [mbind outcome_bind]. unfold alloc.
  destruct err as [e|]; [intros [= <- <- <-] [= <- <- <-]; done|].
  destruct (gzip_Reader_Close zr') as [[e|]| |];
    cbn [mbind outcome_bind]; try done.
  { intros [= <- <- <-] [= <- <- <-]; done. }
  pose proof (copy_make (<[fresh (dom h1) := bs]> h1) (fresh (dom h1))) as Hc1.
  pose proof (copy_make (<[fresh (dom h2) := bs]> h2) (fresh (dom h2))) as Hc2.
  unfold make in Hc1, Hc2 |- *. cbn [fst snd] in Hc1, Hc2.
  rewrite Hc1, Hc2 by (rewrite lookup_insert_eq; eauto).
  rewrite !contents_insert_eq. intros [= <- <- <-] [= <- <- <-].
  unfold observed. cbn. by rewrite !lookup_insert_eq.
Qed.

(** Every valid series of gzip members decompresses to what it encodes,
    on any well-formed instance. *)
Lemma Decompress_complete msg d g h :
  wf g h ->
  gzip_stream msg d ->
  exists q g' h',
    Decompress msg g h = Done ((Some q, None), g', h')
    /\ h' !! q = Some d.
Proof.
  intros (_ & Hr & _) (hdr & r & Hhdr & -> & Hbodies).
  assert (Hfin : forall (g0 : gzipCompressor) z',
    r_decompressor z' = Some (FlateReader (Some EOF)) ->
    exists q g' h',
      (let '(data, h0) := alloc d h in
       err ← gzip_Reader_Close z';
       match err with
       | Some e => Done ((None, Some e) : result, g0, h0)
       | None =>
           let '(decompData, h1) := make (length (contents h0 data)) h0 in
           let h2 := copy decompData data h1 in
           Done ((Some decompData, None), g0, h2)
       end) = Done ((Some q, None), g', h')
      /\ h' !! q = Some d).
  { intros g0 z' Hz'. unfold alloc, gzip_Reader_Close. rewrite Hz'. cbn.
    pose proof (copy_make (<[fresh (dom h) := d]> h) (fresh (dom h))) as Hcm.
    unfold make in Hcm |- *. cbn [fst snd] in Hcm.
    rewrite Hcm by (rewrite lookup_insert_eq; eauto).
    rewrite contents_insert_eq.
    do 3 eexists. split; [reflexivity|]. by rewrite lookup_insert_eq. }
  unfold Decompress, resetReader.
  destruct (readerInitialised g) eqn:Hinit; cbn [negb].
  - destruct (Hr Hinit) as (br & zr & fr & Hbr & Hzr & Hfr).
    rewrite Hbr, Hzr. cbn [deref mbind outcome_bind].
    unfold bytes_Reader_Reset, gzip_Reader_Reset.
    rewrite readHeader_complete by done. unfold gzip_Reader_set_err. cbn.
    unfold io_ReadAll.
    edestruct (gzip_ReadAll_complete r d Hbodies (length r)) as (z' & -> & Hz');
      try reflexivity.
    cbn [mbind outcome_bind]. by apply Hfin.
  - unfold bytes_NewReader, gzip_NewReader, gzip_Reader_Reset.
    rewrite readHeader_complete by done. unfold gzip_Reader_set_err. cbn.
    unfold io_ReadAll.
    edestruct (gzip_ReadAll_complete r d Hbodies (length r)) as (z' & -> & Hz');
      try reflexivity.
    cbn [mbind outcome_bind]. by apply Hfin.
Qed.
Lemma gzip_stream_length msg d : gzip_stream msg d -> (18 <= length msg)%nat.
Proof.
  intros (hdr & r & Hhdr & -> & Hb). rewrite length_app.
  apply gzip_hdr_length in Hhdr. apply gzip_bodies_length in Hb. lia.
Qed.

(** The outputs of [Compress], one after the other, form a valid series
    of members. *)
Lemma gzip_bodies_members d ds :
  flate_round_trip ->
  gzip_bodies (deflate d ++ gzip_trailer d ++ concat (gzip_member <$> ds))
    (d ++ concat ds).
Proof.
  intros RT. revert d. induction ds as [|d' ds IH]; intros d; cbn [fmap list_fmap concat].
  - rewrite !app_nil_r. apply gzip_bodies_last. apply RT.
  - unfold gzip_member at 1. rewrite <- !app_assoc.
    apply gzip_bodies_more; [apply RT| |apply IH].
    exists Byte.x00, [Byte.x00; Byte.x00; Byte.x00; Byte.x00], Byte.x00, Byte.xff,
      [], [], [], []. cbn zeta. split_and!; done.
Qed.

Lemma gzip_hdr_gzip_header : gzip_hdr (gzip_header Byte.xff).
Proof.
  exists Byte.x00, [Byte.x00; Byte.x00; Byte.x00; Byte.x00], Byte.x00, Byte.xff,
    [], [], [], []. cbn zeta. split_and!; done.
Qed.

Lemma run_all_writer cs : forall g h g' h',
  wf g h -> writerInitialised g = true ->
  run_all cs g h = Done (g', h') ->
  writerInitialised g' = true /\ writeBuffer g' = writeBuffer g.
Proof.
  induction cs as [|c cs IH]; intros g h g' h' Hwf Hinit; cbn [run_all].
  - by intros [= <- <-].
  - destruct (run_effect c g h Hwf) as (res & g1 & h1 & -> & Hwf1 & _ & Hw & _).
    cbn [mbind outcome_bind]. destruct (Hw Hinit) as [Hi1 Hb1].
    intros Hrest. apply IH in Hrest as [? ?]; [|done..]. split; congruence.
Qed.

End FurtherLemmas.

(** ** The properties *)

Section Further.
Context `{Flate}.
Arguments gzip_ReadAll : simpl never.
Arguments readHeader : simpl never.

(** X1 (no call ever panics or hangs).  On every state reachable from
    [NewCompressor], each call of [Compress] or [Decompress] returns: no
    nil pointer is dereferenced and the decoding loop ends.  It returns
    either an allocated slice and a nil error or no slice and an error,
    and so does every further call, in any sequence. *)
Theorem every_call_returns g h :
  reachable g h ->
  (forall c, exists res g' h',
     run c g h = Done (res, g', h') /\ reachable g' h'
     /\ ((exists p, res = (Some p, None) /\ is_Some (h' !! p))
         \/ (exists e, res = (None, Some e))))
  /\ (forall cs, exists g' h',
        run_all cs g h = Done (g', h') /\ reachable g' h').
Proof.
  intros Hr. split; [|intros cs; by apply run_all_reachable].
  intros c.
  destruct (run_effect c g h (proj1 (reachable_wf g h Hr)))
    as (res & g1 & h1 & Hrun & _ & _ & _ & _ & Hres).
  exists res, g1, h1. split_and!; [done|by eapply run_reachable|].
  destruct Hres as [?|(p & ? & _ & ? & _)]; [by right|left; by eauto].
Qed.

(** X2 (no state leaks between calls).  What a call returns, the bytes
    or the error, is the same on any two reachable states: it does not
    depend on the calls made before on the instance. *)
Theorem results_do_not_depend_on_history
    c g1 h1 res1 g1' h1' g2 h2 res2 g2' h2' :
  reachable g1 h1 -> reachable g2 h2 ->
  run c g1 h1 = Done (res1, g1', h1') ->
  run c g2 h2 = Done (res2, g2', h2') ->
  observed res1 h1' = observed res2 h2'.
Proof.
  intros Hr1 Hr2.
  pose proof (reachable_wf g1 h1 Hr1) as [Hwf1 Hinit1].
  pose proof (reachable_wf g2 h2 Hr2) as [Hwf2 Hinit2].
  destruct c as [msg|msg]; cbn [run]; intros H1 H2.
  - destruct (Compress_effect msg g1 h1 Hwf1) as (p1 & ga & ha & HC1 & Hp1 & _).
    destruct (Compress_effect msg g2 h2 Hwf2) as (p2 & gb & hb & HC2 & Hp2 & _).
    rewrite H1 in HC1. rewrite H2 in HC2.
    injection HC1 as -> -> ->. injection HC2 as -> -> ->.
    unfold observed. cbn. by rewrite Hp1, Hp2.
  - by eapply (Decompress_uninit_observed msg g1 h1 g2 h2).
Qed.

(** X3 (the length gate never refuses a decodable input).  On every
    reachable instance, an input of fewer than 18 bytes, and so every
    input for which [IsDecompressable] is false, makes [Decompress]
    return an error: a gzip member is at least a 10-byte header and an
    8-byte trailer. *)
Theorem short_input_is_rejected g h msg :
  reachable g h ->
  (length msg < 18)%nat \/ IsDecompressable g msg = false ->
  exists e g' h', Decompress msg g h = Done ((None, Some e), g', h').
Proof.
  intros Hr Hshort. apply reachable_wf in Hr as [Hwf Hinit].
  assert (Hl : (length msg < 18)%nat).
  { destruct Hshort as [|Hd]; [done|].
    unfold IsDecompressable in Hd. apply Nat.ltb_ge in Hd. lia. }
  destruct (Decompress_total msg g h Hwf)
    as (res & g' & h' & HD & _ & _ & _ & _ & _ & _ & Hres).
  destruct Hres as [[e ->]|(q & -> & _)]; [by eauto|].
  apply Decompress_sound in HD as (d & _ & Hd); [|done].
  apply gzip_stream_length in Hd. lia.
Qed.


(** X5 (concatenated outputs).  The outputs of [Compress] for the inputs
    [d], [ds], written one after the other, decompress in one call to the
    concatenation of the inputs: the reader goes on to the next member
    after each trailer. *)
Theorem Decompress_concatenated_members g h d ds :
  flate_round_trip ->
  wf g h ->
  exists q g' h',
    Decompress (concat (gzip_member <$> d :: ds)) g h
    = Done ((Some q, None), g', h')
    /\ h' !! q = Some (concat (d :: ds)).
Proof.
  intros RT Hwf. apply Decompress_complete; [done|].
  cbn [fmap list_fmap concat]. unfold gzip_member at 1. rewrite <- !app_assoc.
  eexists _, _. split; [apply gzip_hdr_gzip_header|]. split; [reflexivity|].
  by apply gzip_bodies_members.
Qed.

(** X6 (the write side binds once).  Every [Compress] call leaves the
    write-side flag set and a write buffer that holds the member just
    produced; once the flag is set, no sequence of calls of either
    operation clears it or moves the buffer to another location. *)
Theorem write_side_binds_once g h :
  wf g h ->
  (forall msg res g' h',
     Compress msg g h = Done (res, g', h') ->
     writerInitialised g' = true
     /\ exists buf, writeBuffer g' = Some buf /\ h' !! buf = Some (gzip_member msg))
  /\ (writerInitialised g = true ->
      forall cs g' h',
        run_all cs g h = Done (g', h') ->
        writerInitialised g' = true /\ writeBuffer g' = writeBuffer g).
Proof.
  intros Hwf. split.
  - intros msg res g' h' HC.
    destruct (Compress_spec msg g h Hwf) as (buf & zw & HC' & _).
    cbn zeta in HC'. rewrite HC in HC'. injection HC' as -> -> ->.
    split; [done|]. exists buf. split; [done|].
    assert (fresh (dom (<[buf:=gzip_member msg]> h)) <> buf).
    { apply fresh_ne. rewrite lookup_insert_eq. eauto. }
    by rewrite lookup_insert_ne, lookup_insert_eq.
  - intros Hinit cs g' h'. by apply run_all_writer.
Qed.

(** X7 (the two halves do not touch each other).  [Compress] leaves the
    read-side flag, cursor and gzip reader as they were; [Decompress]
    leaves the write-side flag, buffer pointer and gzip writer as they
    were and changes no slice that was allocated before the call. *)
Theorem halves_are_independent g h :
  wf g h ->
  (forall msg res g' h',
     Compress msg g h = Done (res, g', h') ->
     readerInitialised g' = readerInitialised g
     /\ bytesReader g' = bytesReader g /\ gzipReader g' = gzipReader g)
  /\ (forall msg res g' h',
        Decompress msg g h = Done (res, g', h') ->
        writerInitialised g' = writerInitialised g
        /\ writeBuffer g' = writeBuffer g /\ gzipWriter g' = gzipWriter g
        /\ h ⊆ h').
Proof.
  intros Hwf. split.
  - intros msg res g' h' HC.
    destruct (Compress_spec msg g h Hwf) as (buf & zw & HC' & _).
    cbn zeta in HC'. rewrite HC in HC'. by injection HC' as -> -> ->.
  - intros msg res g' h' HD.
    destruct (Decompress_total msg g h Hwf)
      as (res1 & g1 & h1 & HD' & ? & _ & ? & ? & _ & ? & _).
    rewrite HD in HD'. by injection HD' as -> -> ->.
Qed.

(** X8 (which error a bad header gives).  On every reachable instance,
    [Decompress] returns [io.EOF] for the empty input,
    [io.ErrUnexpectedEOF] for an input of 1 to 9 bytes, and
    [gzip.ErrHeader] for an input of at least 10 bytes that does not
    begin with the gzip magic and method bytes. *)
Theorem header_error_kinds g h msg :
  reachable g h ->
  (msg = [] ->
   exists g' h', Decompress msg g h = Done ((None, Some EOF), g', h'))
  /\ ((0 < length msg < 10)%nat ->
      exists g' h',
        Decompress msg g h = Done ((None, Some ErrUnexpectedEOF), g', h'))
  /\ ((10 <= length msg)%nat ->
      take 3 msg <> [gzipID1; gzipID2; gzipDeflate] ->
      exists g' h',
        Decompress msg g h = Done ((None, Some ErrHeader), g', h')).
Proof.
  intros Hr. apply reachable_wf in Hr as [_ Hinit].
  set (z0 := {| r_decompressor := None; r_digest := 0; r_size := 0;
                r_err := None; r_multistream := true |}).
  split_and!.
  - intros ->. rewrite (Decompress_header_error [] g h EOF z0 []); by eauto.
  - intros Hl.
    rewrite (Decompress_header_error msg g h ErrUnexpectedEOF z0 []);
      [by eauto|done|].
    unfold readHeader, io_ReadFull.
    destruct (Nat.ltb_spec (length msg) 10); [|lia].
    destruct msg; [simpl in Hl; lia|done].
  - intros Hl Hm.
    assert (Hh : exists r1, readHeader z0 msg = (Some ErrHeader, z0, r1)).
    { unfold readHeader, io_ReadFull.
      destruct (Nat.ltb_spec (length msg) 10); [lia|].
      destruct msg as [|id1 [|id2 [|cm [|flg msg]]]]; try (simpl in *; lia).
      cbn [take firstn].
      destruct (decide _) as [(-> & -> & ->)|]; [by destruct Hm|by eauto]. }
    destruct Hh as [r1 Hh].
    rewrite (Decompress_header_error msg g h ErrHeader z0 r1); by eauto.
Qed.

(** X9 (Compress is injective).  When the DEFLATE decoder inverts the
    encoder, two inputs with the same [Compress] output are equal. *)
Theorem Compress_is_injective a b c :
  flate_round_trip ->
  Compress_output a c -> Compress_output b c -> a = b.
Proof.
  intros RT ->%Compress_output_member Hb%Compress_output_member.
  unfold gzip_member in Hb. apply app_inv_head in Hb.
  pose proof (RT a (gzip_trailer a)) as Ha. rewrite Hb, RT in Ha.
  by injection Ha as <- _.
Qed.

(** X11 (bytes appended to an output are rejected).  On every reachable
    instance, a [Compress] output followed by a non-empty sequence that
    is not itself a valid series of gzip members makes [Decompress]
    return an error. *)
Theorem appended_junk_is_rejected g h b c junk :
  flate_round_trip ->
  reachable g h ->
  Compress_output b c ->
  junk <> [] ->
  ~ (exists d, gzip_stream junk d) ->
  exists e g' h', Decompress (c ++ junk) g h = Done ((None, Some e), g', h').
Proof.
  intros RT Hr ->%Compress_output_member Hjunk Hbad.
  pose proof Hr as Hr'. apply reachable_wf in Hr' as [Hwf Hinit].
  destruct (Decompress_total (gzip_member b ++ junk) g h Hwf)
    as (res & g' & h' & HD & _ & _ & _ & _ & _ & _ & Hres).
  destruct Hres as [[e ->]|(q & -> & _)]; [by eauto|].
  apply Decompress_sound in HD as (d & _ & hdr & r & Hhdr & Heq & Hbodies);
    [|done].
  exfalso.
  (* the stream starts with the header Compress wrote *)
  pose proof (readHeader_complete
    {| r_decompressor := None; r_digest := 0; r_size := 0;
       r_err := None; r_multistream := true |} hdr r Hhdr) as H1.
  rewrite <- Heq in H1. unfold gzip_member in H1. rewrite <- !app_assoc in H1.
  rewrite readHeader_gzip_header in H1.
  assert (Hreq : r = deflate b ++ gzip_trailer b ++ junk) by congruence.
  clear H1 Heq.
  (* and goes on with the body and trailer of [b] *)
  destruct Hbodies as [body d0 Hinf|body d0 hdr' rest d' Hinf Hhdr' Hrest].
  - rewrite Hreq, RT in Hinf. injection Hinf as -> Hlen.
    apply (f_equal (drop (length body))) in Hreq.
    rewrite drop_app_length, <- Hlen, drop_app_length in Hreq.
    apply (f_equal length) in Hreq. rewrite length_app in Hreq.
    change (length (gzip_trailer d0)) with 8%nat in Hreq.
    destruct junk; [done|simpl in Hreq; lia].
  - rewrite Hreq, RT in Hinf. injection Hinf as -> Hlen.
    apply (f_equal (drop (length body))) in Hreq.
    rewrite drop_app_length, <- Hlen, drop_app_length in Hreq.
    apply (f_equal (drop (length (gzip_trailer d0)))) in Hreq.
    rewrite !drop_app_length in Hreq. subst junk.
    apply Hbad. exists d', hdr', rest. done.
Qed.

(** X12 (layout of an output).  Every [Compress] output is the ten header
    bytes [1f 8b 08 00 00 00 00 00 00 ff] (no flags, no modification
    time, unknown OS), the DEFLATE stream of the input, then the CRC-32
    of the input and its length modulo 2^32, both little endian: 18
    bytes more than the DEFLATE stream. *)
Theorem Compress_output_layout b c :
  Compress_output b c ->
  length c = (18 + length (deflate b))%nat
  /\ take 10 c
     = [Byte.x1f; Byte.x8b; Byte.x08; Byte.x00; Byte.x00; Byte.x00;
        Byte.x00; Byte.x00; Byte.x00; Byte.xff]
  /\ take (length (deflate b)) (drop 10 c) = deflate b
  /\ drop (10 + length (deflate b)) c
     = le.PutUint32 (crc32.ChecksumIEEE b)
         ++ le.PutUint32 (N.of_nat (length b) mod 2 ^ 32).
Proof.
  intros ->%Compress_output_member. split_and!.
  - rewrite gzip_member_length. lia.
  - reflexivity.
  - unfold gzip_member.
    change (drop 10 (gzip_header Byte.xff ++ ?t)) with t.
    by rewrite take_app_length.
  - unfold gzip_member. rewrite app_assoc.
    replace (10 + length (deflate b))%nat
      with (length (gzip_header Byte.xff ++ deflate b))
      by (by rewrite length_app).
    by rewrite drop_app_length.
Qed.
End Further.

(** ** The further properties at work *)

Section FurtherWitnesses.
#[local] Existing Instance stored.flate.

Lemma every_call_returns_witness :
  reachable NewCompressor ∅
  /\ (forall c, exists res g' h',
        run c NewCompressor ∅ = Done (res, g', h') /\ reachable g' h'
        /\ ((exists p, res = (Some p, None) /\ is_Some (h' !! p))
            \/ (exists e, res = (None, Some e))))
  /\ (forall cs, exists g' h',
        run_all cs NewCompressor ∅ = Done (g', h') /\ reachable g' h').
Proof.
  split; [apply reach_new|].
  apply (every_call_returns NewCompressor ∅), reach_new.
Defined.

Lemma results_do_not_depend_on_history_witness :
  exists r0 g2 h2 res1 g1' h1' res2 g2' h2',
    Compress [Byte.x42; Byte.x43] NewCompressor ∅ = Done (r0, g2, h2)
    /\ run (CallDecompress (gzip_member [Byte.x41])) NewCompressor ∅
       = Done (res1, g1', h1')
    /\ run (CallDecompress (gzip_member [Byte.x41])) g2 h2
       = Done (res2, g2', h2')
    /\ observed res1 h1' = observed res2 h2'.
Proof.
  do 9 eexists.
  split; [vm_compute; reflexivity|].
  split; [vm_compute; reflexivity|].
  split; [vm_compute; reflexivity|].
  eapply (results_do_not_depend_on_history
            (CallDecompress (gzip_member [Byte.x41])) NewCompressor ∅).
  - apply reach_new.
  - eapply (reach_Compress [Byte.x42; Byte.x43] NewCompressor ∅);
      [apply reach_new|vm_compute; reflexivity].
  - vm_compute; reflexivity.
  - vm_compute; reflexivity.
Defined.

Lemma short_input_is_rejected_witness :
  reachable NewCompressor ∅
  /\ IsDecompressable NewCompressor (replicate 10 Byte.x00) = false
  /\ exists e g' h',
       Decompress (replicate 10 Byte.x00) NewCompressor ∅
       = Done ((None, Some e), g', h').
Proof.
  split; [apply reach_new|]. split; [reflexivity|].
  apply short_input_is_rejected; [apply reach_new|right; reflexivity].
Defined.


Lemma Decompress_concatenated_members_witness :
  flate_round_trip /\ wf NewCompressor ∅
  /\ exists q g' h',
       Decompress
         (concat (gzip_member <$> [Byte.x41] :: [[Byte.x42]; []]))
         NewCompressor ∅
       = Done ((Some q, None), g', h')
       /\ h' !! q = Some (concat ([Byte.x41] :: [[Byte.x42]; []])).
Proof.
  split; [exact stored_facts.round_trip|].
  split; [apply wf_NewCompressor|].
  apply Decompress_concatenated_members;
    [exact stored_facts.round_trip|apply wf_NewCompressor].
Defined.

Lemma write_side_binds_once_witness :
  exists r0 g h,
    Compress [Byte.x41] NewCompressor ∅ = Done (r0, g, h)
    /\ wf g h
    /\ writerInitialised g = true
    /\ (forall msg res g' h',
          Compress msg g h = Done (res, g', h') ->
          writerInitialised g' = true
          /\ exists buf,
               writeBuffer g' = Some buf
               /\ h' !! buf = Some (gzip_member msg))
    /\ (writerInitialised g = true ->
        forall cs g' h',
          run_all cs g h = Done (g', h') ->
          writerInitialised g' = true /\ writeBuffer g' = writeBuffer g).
Proof.
  do 3 eexists. split; [vm_compute; reflexivity|].
  match goal with
  | |- wf ?g ?h /\ _ =>
      assert (Hwf : wf g h)
        by (apply reachable_wf;
            eapply (reach_Compress [Byte.x41] NewCompressor ∅);
            [apply reach_new|vm_compute; reflexivity])
  end.
  split; [exact Hwf|]. split; [reflexivity|].
  apply write_side_binds_once, Hwf.
Defined.

Lemma halves_are_independent_witness :
  wf NewCompressor ∅
  /\ (forall msg res g' h',
        Compress msg NewCompressor ∅ = Done (res, g', h') ->
        readerInitialised g' = readerInitialised NewCompressor
        /\ bytesReader g' = bytesReader NewCompressor
        /\ gzipReader g' = gzipReader NewCompressor)
  /\ (forall msg res g' h',
        Decompress msg NewCompressor ∅ = Done (res, g', h') ->
        writerInitialised g' = writerInitialised NewCompressor
        /\ writeBuffer g' = writeBuffer NewCompressor
        /\ gzipWriter g' = gzipWriter NewCompressor
        /\ (∅ : heap) ⊆ h').
Proof.
  split; [apply wf_NewCompressor|].
  apply halves_are_independent, wf_NewCompressor.
Defined.

Lemma header_error_kinds_witness :
  reachable NewCompressor ∅
  /\ (([Byte.x1f; Byte.x8b] : list byte) = [] ->
      exists g' h',
        Decompress [Byte.x1f; Byte.x8b] NewCompressor ∅
        = Done ((None, Some EOF), g', h'))
  /\ ((0 < length [Byte.x1f; Byte.x8b] < 10)%nat ->
      exists g' h',
        Decompress [Byte.x1f; Byte.x8b] NewCompressor ∅
        = Done ((None, Some ErrUnexpectedEOF), g', h'))
  /\ ((10 <= length [Byte.x1f; Byte.x8b])%nat ->
      take 3 [Byte.x1f; Byte.x8b] <> [gzipID1; gzipID2; gzipDeflate] ->
      exists g' h',
        Decompress [Byte.x1f; Byte.x8b] NewCompressor ∅
        = Done ((None, Some ErrHeader), g', h')).
Proof.
  split; [apply reach_new|].
  apply header_error_kinds, reach_new.
Defined.

Lemma Compress_is_injective_witness :
  flate_round_trip
  /\ Compress_output [Byte.x41] (gzip_member [Byte.x41])
  /\ ([Byte.x41] : list byte) = [Byte.x41].
Proof.
  split; [exact stored_facts.round_trip|].
  assert (Hc : Compress_output [Byte.x41] (gzip_member [Byte.x41]))
    by (by apply Compress_output_member).
  split; [exact Hc|].
  exact (Compress_is_injective [Byte.x41] [Byte.x41] (gzip_member [Byte.x41])
           stored_facts.round_trip Hc Hc).
Defined.

Lemma appended_junk_is_rejected_witness :
  flate_round_trip /\ reachable NewCompressor ∅
  /\ Compress_output [Byte.x41] (gzip_member [Byte.x41])
  /\ exists e g' h',
       Decompress (gzip_member [Byte.x41] ++ [Byte.x00]) NewCompressor ∅
       = Done ((None, Some e), g', h').
Proof.
  split; [exact stored_facts.round_trip|]. split; [apply reach_new|].
  assert (Hc : Compress_output [Byte.x41] (gzip_member [Byte.x41]))
    by (by apply Compress_output_member).
  split; [exact Hc|].
  apply (appended_junk_is_rejected NewCompressor ∅ [Byte.x41]);
    [exact stored_facts.round_trip|apply reach_new|exact Hc|discriminate|].
  intros [d Hd]. apply gzip_stream_length in Hd. simpl in Hd. lia.
Defined.

Lemma Compress_output_layout_witness :
  Compress_output [Byte.x41] (gzip_member [Byte.x41])
  /\ length (gzip_member [Byte.x41]) = (18 + length (deflate [Byte.x41]))%nat
  /\ take 10 (gzip_member [Byte.x41])
     = [Byte.x1f; Byte.x8b; Byte.x08; Byte.x00; Byte.x00; Byte.x00;
        Byte.x00; Byte.x00; Byte.x00; Byte.xff]
  /\ take (length (deflate [Byte.x41])) (drop 10 (gzip_member [Byte.x41]))
     = deflate [Byte.x41]
  /\ drop (10 + length (deflate [Byte.x41])) (gzip_member [Byte.x41])
     = le.PutUint32 (crc32.ChecksumIEEE [Byte.x41])
         ++ le.PutUint32 (N.of_nat (length [Byte.x41]) mod 2 ^ 32).
Proof.
  assert (Hc : Compress_output [Byte.x41] (gzip_member [Byte.x41]))
    by (by apply Compress_output_member).
  split; [exact Hc|].
  exact (Compress_output_layout [Byte.x41] (gzip_member [Byte.x41]) Hc).
Defined.
End FurtherWitnesses.
